(** * go-caskdb: the log-structured store of [disk_store.go]

    A shallow embedding of [DiskStore] (its [Get], [Set], [Close],
    [NewDiskStore] and the recovery scan [createKeyStore]) together with the
    record codec it calls, and the properties of the store's specification
    stated over that embedding.

    Conventions.
    - Go's [uint32] and [int64] values are integers of [Z]; every conversion
      [uint32(x)] of the source is written out as [x mod 2^32].
    - Go strings are byte sequences; they are [string] here and
      [list_byte_of_string] / [string_of_list_byte] are the conversions
      [[]byte(s)] and [string(b)].
    - [log.Fatal] ends the process; an operation that reaches one returns
      [Fatal] and no store.
    - [time.Now().Unix()] is an input of [Set], the argument [now]. *)

From Stdlib Require Import ZArith Lia List.
From Stdlib Require Import Strings.String Strings.Byte.
From stdpp Require Import base option list gmap strings.
From Equations Require Import Equations.

Local Open Scope Z_scope.

(* ------------------------------------------------------------------------- *)
(** ** Bytes and fixed-width integers *)

Definition uint32 (x : Z) : Z := x mod 2 ^ 32.

Definition byte_of_Z (z : Z) : byte :=
  match Byte.of_N (Z.to_N (z mod 256)) with
  | Some b => b
  | None => x00
  end.

Definition Z_of_byte (b : byte) : Z := Z.of_N (Byte.to_N b).

(** [len s] is Go's [len(s)] for a string, [blen b] for a byte slice. *)
Definition len (s : string) : Z := Z.of_nat (String.length s).
Definition blen (b : list byte) : Z := Z.of_nat (length b).

(* ------------------------------------------------------------------------- *)
(** ** Record codec *)

Module Codec.

Inductive error := CorruptHeader | CorruptRecord.

Definition headerSize : Z := 12.

(** Modelled from the spec: the four-byte little-endian layout of one
    unsigned 32-bit header field (the repository's encoder is not among the
    sources). *)
Definition putUint32 (v : Z) : list byte :=
  [byte_of_Z v; byte_of_Z (v / 2 ^ 8); byte_of_Z (v / 2 ^ 16);
   byte_of_Z (v / 2 ^ 24)].

(** Modelled from the spec: reading a four-byte little-endian field, the
    inverse layout of [putUint32]. *)
Definition getUint32 (b0 b1 b2 b3 : byte) : Z :=
  Z_of_byte b0 + 2 ^ 8 * Z_of_byte b1 + 2 ^ 16 * Z_of_byte b2
  + 2 ^ 24 * Z_of_byte b3.

(** Modelled from the spec: the header is timestamp, key_size, value_size in
    that order, four bytes each ([encodeHeader] is missing from the
    sources). *)
Definition encodeHeader (timestamp keySize valueSize : Z) : list byte :=
  putUint32 timestamp ++ putUint32 keySize ++ putUint32 valueSize.

(** Modelled from the spec: Encode(timestamp, key, value) gives
    total_size = 12 + len(key) + len(value) and the buffer header, key bytes,
    value bytes; no length validation ([encodeKV] is missing from the
    sources). *)
Definition encodeKV (timestamp : Z) (key value : string) : Z * list byte :=
  (headerSize + len key + len value,
   encodeHeader timestamp (len key) (len value)
     ++ list_byte_of_string key ++ list_byte_of_string value).

(** Modelled from the spec: DecodeHeader reads the three fields of a 12-byte
    buffer and fails with CorruptHeader when fewer bytes are supplied
    ([decodeHeader] is missing from the sources). *)
Definition decodeHeader (buf : list byte) : error + (Z * Z * Z) :=
  match buf with
  | t0 :: t1 :: t2 :: t3 :: k0 :: k1 :: k2 :: k3 :: v0 :: v1 :: v2 :: v3 :: _ =>
      inr (getUint32 t0 t1 t2 t3, getUint32 k0 k1 k2 k3, getUint32 v0 v1 v2 v3)
  | _ => inl CorruptHeader
  end.

(** Modelled from the spec: DecodeKV slices key and value out of a full
    record with the header's size fields and fails with CorruptRecord when
    the buffer is shorter than 12 + key_size + value_size ([decodeKV] is
    missing from the sources). *)
Definition decodeKV (buf : list byte) : error + (Z * string * string) :=
  match decodeHeader (take 12 buf) with
  | inl e => inl e
  | inr (timestamp, keySize, valueSize) =>
      if blen buf <? headerSize + keySize + valueSize then inl CorruptRecord
      else
        let body := drop 12 buf in
        inr (timestamp,
             string_of_list_byte (take (Z.to_nat keySize) body),
             string_of_list_byte
               (take (Z.to_nat valueSize) (drop (Z.to_nat keySize) body)))
  end.

End Codec.

Import Codec.

(* ------------------------------------------------------------------------- *)
(** ** The file under the store

    An [os.File] is the byte contents of the file on disk, the handle's
    offset, and whether the handle has been closed.  The store is the only
    user of its file, so the contents live in the handle.  The operations are
    the ones the source calls, with the behaviour of [os] and [io] on a POSIX
    system: a handle opened with [O_APPEND] writes at the end of the file
    whatever its offset is and leaves the offset at the new end; a seek moves
    only the offset and may go past the end; every operation on a closed
    handle is an error.  Storage that fails under an open handle (a full disk,
    a failing device) is outside the model. *)

Module OS.

Inductive error := EOF | ErrUnexpectedEOF | ErrClosed | ErrInvalid.

Inductive whence := SeekStart | SeekCurrent.

Record File := mkFile {
  data : list byte;
  offset : Z;
  closed : bool
}.

(** [os.OpenFile] and [os.Open] on a file with the given contents. *)
Definition Open (contents : list byte) : File := mkFile contents 0 false.

(** [f.Seek(off, whence)]: the new offset. *)
Definition Seek (f : File) (off : Z) (w : whence) : error + (Z * File) :=
  if closed f then inl ErrClosed
  else
    let target := match w with
                  | SeekStart => off
                  | SeekCurrent => offset f + off
                  end in
    if target <? 0 then inl ErrInvalid
    else inr (target, mkFile (data f) target (closed f)).

(** [io.ReadFull(f, buf)] with [len(buf) = n]: the buffer filled, or [EOF]
    when no byte could be read and [ErrUnexpectedEOF] when some but fewer
    than [n] could.  With [n = 0] nothing is read and there is no error. *)
Definition ReadFull (f : File) (n : Z) : error + (list byte * File) :=
  if n <=? 0 then inr ([], f)
  else if closed f then inl ErrClosed
  else
    let avail := drop (Z.to_nat (offset f)) (data f) in
    if n <=? blen avail
    then inr (take (Z.to_nat n) avail, mkFile (data f) (offset f + n) (closed f))
    else match avail with
         | [] => inl EOF
         | _ :: _ => inl ErrUnexpectedEOF
         end.

(** [f.Write(b)] on a handle opened with [O_APPEND]. *)
Definition Write (f : File) (b : list byte) : error + (Z * File) :=
  if closed f then inl ErrClosed
  else inr (blen b, mkFile (data f ++ b) (blen (data f ++ b)) (closed f)).

(** [f.Close()]: an error on a handle already closed. *)
Definition Close (f : File) : option error * File :=
  if closed f then (Some ErrClosed, f)
  else (None, mkFile (data f) (offset f) true).

End OS.

(* ------------------------------------------------------------------------- *)
(** ** Outcomes of an operation of the store *)

(** The ways an operation ends the process, one per [log.Fatal] message of the
    source, and [Panic] for a buffer the decoder rejects. *)
Inductive fatal :=
| ErrorSeekingToValue
| ErrorReadingFile
| FailedToSeek
| FailedToWrite
| CouldNotReadHeader
| CouldNotReadKey
| CouldNotSkipValue
| Panic (e : Codec.error).

Inductive result (A : Type) :=
| Ok (a : A)
| Fatal (e : fatal).
Arguments Ok {A} a.
Arguments Fatal {A} e.

Definition bind {A B} (r : result A) (k : A -> result B) : result B :=
  match r with
  | Ok a => k a
  | Fatal e => Fatal e
  end.

Definition value_of {A S} (r : result (A * S)) : result A :=
  bind r (fun p => Ok (fst p)).

Definition state_of {A S} (r : result (A * S)) : result S :=
  bind r (fun p => Ok (snd p)).

(* ------------------------------------------------------------------------- *)
(** ** DiskStore *)

Record KeyEntry := mkKeyEntry {
  timestamp : Z;
  position : Z;
  totalSize : Z
}.

Record DiskStore := mkDiskStore {
  file : OS.File;
  keyStore : gmap string KeyEntry
}.

Definition Get (d : DiskStore) (key : string) : result (string * DiskStore) :=
  match keyStore d !! key with
  | None => Ok (EmptyString, d)
  | Some keyEntry =>
      match OS.Seek (file d) (position keyEntry) OS.SeekStart with
      | inl _ => Fatal ErrorSeekingToValue
      | inr (_, f1) =>
          match OS.ReadFull f1 (totalSize keyEntry) with
          | inl _ => Fatal ErrorReadingFile
          | inr (buf, f2) =>
              match decodeKV buf with
              | inl e => Fatal (Panic e)
              | inr (_, _, value) => Ok (value, mkDiskStore f2 (keyStore d))
              end
          end
      end
  end.

Definition Set_ (d : DiskStore) (now : Z) (key value : string)
  : result DiskStore :=
  let timestamp := uint32 now in
  let '(size, bytes) := encodeKV timestamp key value in
  match OS.Seek (file d) 0 OS.SeekCurrent with
  | inl _ => Fatal FailedToSeek
  | inr (pos, f1) =>
      match OS.Write f1 bytes with
      | inl _ => Fatal FailedToWrite
      | inr (_, f2) =>
          Ok (mkDiskStore f2
                (<[key := mkKeyEntry timestamp (uint32 pos) (uint32 size)]>
                   (keyStore d)))
      end
  end.

Definition Close (d : DiskStore) : bool * DiskStore :=
  match OS.Close (file d) with
  | (Some _, f) => (false, mkDiskStore f (keyStore d))
  | (None, f) => (true, mkDiskStore f (keyStore d))
  end.

(** One turn of the loop of [createKeyStore]: [None] is its [break]. *)
Definition scanRecord (f : OS.File) (ks : gmap string KeyEntry)
  : result (option (OS.File * gmap string KeyEntry)) :=
  let pos := match OS.Seek f 0 OS.SeekCurrent with
             | inr (p, _) => p
             | inl _ => 0
             end in
  match OS.ReadFull f headerSize with
  | inl OS.EOF => Ok None
  | inl _ => Fatal CouldNotReadHeader
  | inr (buf, f1) =>
      match decodeHeader buf with
      | inl e => Fatal (Panic e)
      | inr (timestamp, keySize, valueSize) =>
          match OS.ReadFull f1 keySize with
          | inl _ => Fatal CouldNotReadKey
          | inr (keyBuf, f2) =>
              let next (f3 : OS.File) :=
                let totalSize := uint32 (headerSize + keySize + valueSize) in
                Ok (Some (f3,
                          <[string_of_list_byte keyBuf :=
                              mkKeyEntry timestamp (uint32 pos) totalSize]> ks)) in
              match OS.Seek f2 valueSize OS.SeekCurrent with
              | inl OS.EOF => next f2
              | inl _ => Fatal CouldNotSkipValue
              | inr (_, f3) => next f3
              end
          end
      end
  end.

(** How far the handle's offset is from the end of the file: the measure that
    makes the loop of [createKeyStore] terminate. *)
Definition remaining (f : OS.File) : nat :=
  Z.to_nat (blen (OS.data f) - OS.offset f).

Lemma Z_of_byte_nonneg (b : byte) : 0 <= Z_of_byte b.
Proof. unfold Z_of_byte. lia. Qed.

Lemma getUint32_nonneg (b0 b1 b2 b3 : byte) : 0 <= getUint32 b0 b1 b2 b3.
Proof.
  unfold getUint32.
  pose proof (Z_of_byte_nonneg b0). pose proof (Z_of_byte_nonneg b1).
  pose proof (Z_of_byte_nonneg b2). pose proof (Z_of_byte_nonneg b3). lia.
Qed.

Lemma decodeHeader_nonneg (buf : list byte) (t k v : Z) :
  decodeHeader buf = inr (t, k, v) -> 0 <= t /\ 0 <= k /\ 0 <= v.
Proof.
  unfold decodeHeader.
  do 12 (destruct buf as [|? buf]; [discriminate|]).
  intros [= <- <- <-]. auto using getUint32_nonneg.
Qed.

Lemma blen_drop (n : Z) (l : list byte) :
  0 <= n -> blen (drop (Z.to_nat n) l) = Z.max 0 (blen l - n).
Proof. intros Hn. unfold blen. rewrite length_drop. lia. Qed.

(** A successful non-empty read moves the offset forward by the bytes read and
    starts before the end of the file. *)
Lemma ReadFull_inr (f f' : OS.File) (n : Z) (buf : list byte) :
  OS.ReadFull f n = inr (buf, f') ->
  OS.data f' = OS.data f /\ OS.closed f' = OS.closed f /\
  ((n <= 0 /\ f' = f /\ buf = []) \/
   (0 < n /\ OS.closed f = false /\ OS.offset f' = OS.offset f + n /\
    n <= blen (drop (Z.to_nat (OS.offset f)) (OS.data f)) /\
    buf = take (Z.to_nat n) (drop (Z.to_nat (OS.offset f)) (OS.data f)))).
Proof.
  unfold OS.ReadFull. destruct (Z.leb_spec n 0) as [Hn|Hn].
  - intros [= <- <-]. split; [done|]. split; [done|]. left. done.
  - destruct (OS.closed f) eqn:Hc; [discriminate|].
    destruct (Z.leb_spec n (blen (drop (Z.to_nat (OS.offset f)) (OS.data f))))
      as [Hle|Hlt].
    + intros [= <- <-]. simpl. split; [done|]. split; [done|].
      right. repeat split; done.
    + destruct (drop _ _); discriminate.
Qed.

Lemma Seek_inr (f f' : OS.File) (off p : Z) (w : OS.whence) :
  OS.Seek f off w = inr (p, f') ->
  OS.closed f = false /\ OS.data f' = OS.data f /\ OS.closed f' = false /\
  OS.offset f' = p /\ 0 <= p /\
  p = match w with OS.SeekStart => off | OS.SeekCurrent => OS.offset f + off end.
Proof.
  unfold OS.Seek. destruct (OS.closed f) eqn:Hc; [discriminate|].
  destruct (Z.ltb_spec (match w with OS.SeekStart => off
                                | OS.SeekCurrent => OS.offset f + off end) 0);
    [discriminate|].
  intros [= <- <-]. simpl. repeat split; done.
Qed.

(** A turn of the loop that continues has read a whole header: the offset
    moved at least 12 bytes toward, or past, the end of the file. *)
Lemma scanRecord_remaining (f f' : OS.File) (ks ks' : gmap string KeyEntry) :
  scanRecord f ks = Ok (Some (f', ks')) ->
  (remaining f' < remaining f)%nat.
Proof.
  unfold scanRecord.
  destruct (OS.ReadFull f headerSize) as [[]|[buf f1]] eqn:Hh; try discriminate.
  apply ReadFull_inr in Hh as (Hd1 & _ & [[? _]|(_ & _ & Ho1 & Hav & _)]);
    [unfold headerSize in *; lia|].
  destruct (decodeHeader buf) as [e|[[t k] v]] eqn:Hdec; [discriminate|].
  apply decodeHeader_nonneg in Hdec as (_ & Hk & Hv).
  destruct (OS.ReadFull f1 k) as [e|[keyBuf f2]] eqn:Hk2; [discriminate|].
  apply ReadFull_inr in Hk2 as (Hd2 & _ & Ho2).
  assert (OS.offset f1 <= OS.offset f2) as Hle12
    by (destruct Ho2 as [(_ & -> & _)|(? & _ & -> & _)]; lia).
  assert (blen (OS.data f) - OS.offset f >= 12
          /\ blen (OS.data f) - OS.offset f1 < blen (OS.data f) - OS.offset f)
    as [Hpos Hlt1].
  { unfold headerSize in *.
    destruct (Z.le_gt_cases 0 (OS.offset f)) as [H0|H0].
    - rewrite blen_drop in Hav by done. lia.
    - replace (Z.to_nat (OS.offset f)) with 0%nat in Hav by lia.
      rewrite drop_0 in Hav. lia. }
  assert (forall f3, OS.data f3 = OS.data f -> OS.offset f2 <= OS.offset f3 ->
                     (remaining f3 < remaining f)%nat) as Hdone.
  { intros f3 Hd3 Ho3. unfold remaining. rewrite Hd3. lia. }
  destruct (OS.Seek f2 v OS.SeekCurrent) as [[]|[p f3]] eqn:Hs;
    try discriminate.
  - intros [= <- <-]. apply Hdone; [congruence|lia].
  - apply Seek_inr in Hs as (_ & Hd3 & _ & Ho3 & _ & ->).
    intros [= <- <-]. apply Hdone; [congruence|lia].
Qed.

(** A value together with the equation that says what it is, for the
    termination proof of the loop below. *)
Definition inspect {A} (a : A) : {b : A | a = b} := exist _ a eq_refl.

(** The loop of [createKeyStore], from the handle [f] and the index [ks]. *)
Equations scanLoop (f : OS.File) (ks : gmap string KeyEntry)
  : result (gmap string KeyEntry) by wf (remaining f) lt :=
scanLoop f ks with inspect (scanRecord f ks) := {
  | exist _ (Fatal e) _ => Fatal e
  | exist _ (Ok None) _ => Ok ks
  | exist _ (Ok (Some (f', ks'))) H => scanLoop f' ks'
}.
Next Obligation. eauto using scanRecord_remaining. Qed.

(** [createKeyStore] on a file with the given contents, into the index [ks]
    (empty when [NewDiskStore] calls it).  The source's [error] result is
    always [nil]: the method returns or ends the process. *)
Definition createKeyStore (contents : list byte) (ks : gmap string KeyEntry)
  : result (gmap string KeyEntry) :=
  scanLoop (OS.Open contents) ks.

(** [NewDiskStore] on a path where [disk] is the contents of the file, [None]
    when there is no file. *)
Definition NewDiskStore (disk : option (list byte)) : result DiskStore :=
  bind (match disk with
        | Some contents => createKeyStore contents ∅
        | None => Ok ∅
        end)
       (fun ks => Ok (mkDiskStore (OS.Open (default [] disk)) ks)).

(* ------------------------------------------------------------------------- *)
(** ** Sequences of operations *)

(** One call of [Set]: the clock reading, the key and the value. *)
Definition write : Type := Z * string * string.

(** The calls [Set(k1, v1); ...; Set(kn, vn)] in order, stopping at the first
    that ends the process. *)
Fixpoint writes (d : DiskStore) (ws : list write) : result DiskStore :=
  match ws with
  | [] => Ok d
  | (now, key, value) :: ws' => bind (Set_ d now key value) (fun d' => writes d' ws')
  end.

(** The bytes and the size of the record a call of [Set] appends. *)
Definition record (w : write) : list byte :=
  let '(now, key, value) := w in snd (encodeKV (uint32 now) key value).

Definition recordSize (w : write) : Z :=
  let '(now, key, value) := w in fst (encodeKV (uint32 now) key value).

(** The log that a sequence of calls of [Set] leaves in a new file. *)
Definition log (ws : list write) : list byte := concat (map record ws).

(** A client's call of [Get] or [Set]. *)
Inductive op :=
| OpGet (key : string)
| OpSet (now : Z) (key value : string).

Definition step (d : DiskStore) (o : op) : result DiskStore :=
  match o with
  | OpGet key => state_of (Get d key)
  | OpSet now key value => Set_ d now key value
  end.

Fixpoint run (d : DiskStore) (os : list op) : result DiskStore :=
  match os with
  | [] => Ok d
  | o :: os' => bind (step d o) (fun d' => run d' os')
  end.

(** The store is open: its handle is not closed (and, as for every handle, the
    offset is not negative). *)
Definition opened (d : DiskStore) : Prop :=
  OS.closed (file d) = false /\ 0 <= OS.offset (file d).

(** The handle's offset is the end of the file. *)
Definition atEnd (d : DiskStore) : Prop :=
  OS.offset (file d) = blen (OS.data (file d)).

(** The bytes a header read finds at the handle's offset. *)
Definition available (f : OS.File) : Z :=
  blen (drop (Z.to_nat (OS.offset f)) (OS.data f)).

(** The calls of [Set] among a client's calls, in order. *)
Fixpoint setsOf (os : list op) : list write :=
  match os with
  | [] => []
  | OpGet _ :: os' => setsOf os'
  | OpSet now key value :: os' => (now, key, value) :: setsOf os'
  end.

(** The usage of the struct's doc comment, repeated: [Set(k, v)] and then
    [Get(k)] for each pair in turn, collecting what the [Get]s return. *)
Fixpoint setGetAll (d : DiskStore) (ws : list write)
  : result (list string * DiskStore) :=
  match ws with
  | [] => Ok ([], d)
  | (now, key, value) :: ws' =>
      bind (Set_ d now key value) (fun d1 =>
      bind (Get d1 key) (fun r1 =>
      bind (setGetAll (snd r1) ws') (fun r2 =>
      Ok (fst r1 :: fst r2, snd r2))))
  end.

(** Every index entry lies inside the file, and so does the handle's offset. *)
Definition inBounds (d : DiskStore) : Prop :=
  OS.closed (file d) = false
  /\ 0 <= OS.offset (file d) <= blen (OS.data (file d))
  /\ forall (key : string) (e : KeyEntry),
       keyStore d !! key = Some e ->
       0 <= position e /\ 0 <= totalSize e
       /\ position e + totalSize e <= blen (OS.data (file d)).

(* ------------------------------------------------------------------------- *)
(** ** Stores and files that the properties below are tried on *)

(** A store on a new file after [Set("a","1")], [Set("b","2")] and
    [Get("a")]: the read has left the handle's offset at the end of the first
    record, 14, while the file is 28 bytes long. *)
Definition afterRead : result DiskStore :=
  bind (NewDiskStore None) (fun d0 =>
  bind (Set_ d0 1 "a" "1") (fun d1 =>
  bind (Set_ d1 2 "b" "2") (fun d2 =>
  state_of (Get d2 "a")))).

(** The store that [Set("a","1")] leaves on a new file. *)
Definition written : DiskStore :=
  mkDiskStore (OS.mkFile (record (1, "a", "1")%string) 14 false)
    (<["a"%string := mkKeyEntry 1 0 14]> ∅).

(** A store reopened on the file that [Set("a","1")] left. *)
Definition reopened : result DiskStore :=
  bind (NewDiskStore None) (fun d0 =>
  bind (Set_ d0 1 "a" "1") (fun d1 =>
  NewDiskStore (Some (OS.data (file (snd (Close d1))))))).

(** The log of [Set("a","1")], [Set("b","hello")] with the last two bytes of
    the value "hello" cut off. *)
Definition truncatedLog : list byte :=
  take 30 (log [(1, "a", "1"); (2, "b", "hello")]%string).

(** A string of [n] zero bytes. *)
Fixpoint nulls (n : nat) : string :=
  match n with
  | O => EmptyString
  | S n' => String Ascii.zero (nulls n')
  end.

(** A value of 2^32 - 41 bytes: after [Set("b","2")] and [Set("c", bigValue)]
    on a new file, the file is 14 bytes short of 4 GiB. *)
Definition bigValue : string := nulls (Z.to_nat (2 ^ 32 - 41)).

(* ------------------------------------------------------------------------- *)
(** ** The words of the specification, for comparison with the code *)

(** The position of the most recent record of [key] in a log that starts at
    offset [base]: the index entry the specification asks for. *)
Fixpoint lastRecord (base : Z) (ws : list write) (key : string) : option Z :=
  match ws with
  | [] => None
  | w :: ws' =>
      match lastRecord (base + recordSize w) ws' key with
      | Some p => Some p
      | None => if decide (w.1.2 = key) then Some base else None
      end
  end.

(** The value most recently written for [key]. *)
Fixpoint lastValue (ws : list write) (key : string) : option string :=
  match ws with
  | [] => None
  | w :: ws' =>
      match lastValue ws' key with
      | Some v => Some v
      | None => if decide (w.1.2 = key) then Some w.2 else None
      end
  end.

(* ------------------------------------------------------------------------- *)
(** ** The codec *)

Section CodecProperties.

Lemma Z_of_byte_of_Z (z : Z) : Z_of_byte (byte_of_Z z) = z mod 256.
Proof.
  unfold Z_of_byte, byte_of_Z.
  pose proof (Z.mod_pos_bound z 256 eq_refl) as Hb.
  destruct (Byte.of_N (Z.to_N (z mod 256))) as [b|] eqn:E.
  - apply Byte.to_of_N in E. rewrite E. lia.
  - apply Byte.of_N_None_iff in E. lia.
Qed.

Lemma getUint32_putUint32 (v : Z) :
  getUint32 (byte_of_Z v) (byte_of_Z (v / 2 ^ 8)) (byte_of_Z (v / 2 ^ 16))
    (byte_of_Z (v / 2 ^ 24)) = uint32 v.
Proof.
  unfold getUint32, uint32. rewrite !Z_of_byte_of_Z.
  change (2 ^ 32) with (256 * (256 * (256 * 256))).
  rewrite (Z.rem_mul_r v 256) by lia.
  rewrite (Z.rem_mul_r (v / 256) 256) by lia.
  rewrite (Z.rem_mul_r (v / 256 / 256) 256) by lia.
  rewrite !Z.div_div by lia.
  change (2 ^ 8) with 256. change (2 ^ 16) with (256 * 256).
  change (2 ^ 24) with (256 * 256 * 256). lia.
Qed.

Lemma uint32_small (x : Z) : 0 <= x < 2 ^ 32 -> uint32 x = x.
Proof. intros. unfold uint32. apply Z.mod_small. done. Qed.

Lemma uint32_idemp (x : Z) : uint32 (uint32 x) = uint32 x.
Proof. unfold uint32. apply Z.mod_mod. lia. Qed.

Lemma decodeHeader_encodeHeader (t k v : Z) (rest : list byte) :
  decodeHeader (encodeHeader t k v ++ rest) = inr (uint32 t, uint32 k, uint32 v).
Proof.
  unfold encodeHeader, putUint32. cbn [app decodeHeader].
  rewrite !getUint32_putUint32. reflexivity.
Qed.

Lemma length_encodeHeader (t k v : Z) : length (encodeHeader t k v) = 12%nat.
Proof. reflexivity. Qed.

Lemma length_list_byte_of_string (s : string) :
  length (list_byte_of_string s) = String.length s.
Proof. induction s as [|a s IH]; [done|]. cbn. f_equal. exact IH. Qed.

Lemma blen_app (a b : list byte) : blen (a ++ b) = blen a + blen b.
Proof. unfold blen. rewrite length_app. lia. Qed.

Lemma blen_nonneg (a : list byte) : 0 <= blen a.
Proof. unfold blen. lia. Qed.

Lemma len_nonneg (s : string) : 0 <= len s.
Proof. unfold len. lia. Qed.

Lemma blen_list_byte_of_string (s : string) : blen (list_byte_of_string s) = len s.
Proof. unfold blen, len. by rewrite length_list_byte_of_string. Qed.

(** The buffer of [encodeKV] has the size [encodeKV] returns with it. *)
Lemma blen_encodeKV (t : Z) (key value : string) :
  blen (snd (encodeKV t key value)) = fst (encodeKV t key value).
Proof.
  unfold encodeKV. cbn [fst snd].
  rewrite !blen_app, !blen_list_byte_of_string.
  change (blen (encodeHeader t (len key) (len value))) with headerSize. lia.
Qed.

Lemma fst_encodeKV (t : Z) (key value : string) :
  fst (encodeKV t key value) = 12 + len key + len value.
Proof. reflexivity. Qed.

(** Decoding what [encodeKV] produced, whatever follows it in the buffer. *)
Lemma decodeKV_encodeKV_app (t : Z) (key value : string) (rest : list byte) :
  len key < 2 ^ 32 -> len value < 2 ^ 32 ->
  decodeKV (snd (encodeKV t key value) ++ rest) = inr (uint32 t, key, value).
Proof.
  intros Hk Hv. pose proof (len_nonneg key). pose proof (len_nonneg value).
  unfold decodeKV, encodeKV. cbn [snd].
  rewrite <- !app_assoc.
  rewrite (take_app_length' (encodeHeader _ _ _)) by reflexivity.
  rewrite <- (app_nil_r (encodeHeader _ _ _)) at 1.
  rewrite decodeHeader_encodeHeader.
  rewrite (uint32_small (len key)), (uint32_small (len value)) by lia.
  rewrite (drop_app_length' (encodeHeader _ _ _)) by reflexivity.
  rewrite !blen_app, !blen_list_byte_of_string.
  change (blen (encodeHeader t (len key) (len value))) with 12.
  pose proof (blen_nonneg rest).
  destruct (Z.ltb_spec (12 + (len key + (len value + blen rest)))
              (headerSize + len key + len value)) as [Hlt|_];
    [unfold headerSize in Hlt; lia|].
  assert (Z.to_nat (len key) = length (list_byte_of_string key)) as ->
    by (rewrite length_list_byte_of_string; unfold len; lia).
  assert (Z.to_nat (len value) = length (list_byte_of_string value)) as ->
    by (rewrite length_list_byte_of_string; unfold len; lia).
  rewrite take_app_length, drop_app_length, take_app_length.
  rewrite !string_of_list_byte_of_string. reflexivity.
Qed.

End CodecProperties.

(** C7. For every timestamp that is an unsigned 32-bit integer and every key
    and value whose lengths fit the 32-bit size fields (the precondition the
    codec leaves to its callers), decoding the buffer that encoding produced
    gives back the same timestamp, key and value, and the size returned with
    the buffer is 12 + len(key) + len(value), which is the buffer's length. *)
Theorem encodeKV_decodeKV_roundtrip (t : Z) (key value : string) :
  0 <= t < 2 ^ 32 -> len key < 2 ^ 32 -> len value < 2 ^ 32 ->
  decodeKV (snd (encodeKV t key value)) = inr (t, key, value)
  /\ fst (encodeKV t key value) = 12 + len key + len value
  /\ blen (snd (encodeKV t key value)) = 12 + len key + len value.
Proof.
  intros Ht Hk Hv. split; [|split].
  - rewrite <- (app_nil_r (snd _)), decodeKV_encodeKV_app by done.
    by rewrite uint32_small.
  - reflexivity.
  - by rewrite blen_encodeKV.
Qed.

Lemma encodeKV_decodeKV_roundtrip_witness :
  decodeKV (snd (encodeKV 1700000000 "othello" "shakespeare"))
    = inr (1700000000, "othello"%string, "shakespeare"%string)
  /\ fst (encodeKV 1700000000 "othello" "shakespeare") = 12 + 7 + 11
  /\ blen (snd (encodeKV 1700000000 "othello" "shakespeare")) = 12 + 7 + 11.
Proof.
  apply (encodeKV_decodeKV_roundtrip 1700000000 "othello" "shakespeare");
    vm_compute; done.
Defined.

(* ------------------------------------------------------------------------- *)
(** ** Set and Get on an open store *)

Section SetGet.

Lemma recordSize_eq (now : Z) (key value : string) :
  recordSize (now, key, value) = 12 + len key + len value.
Proof. reflexivity. Qed.

Lemma blen_record (w : write) : blen (record w) = recordSize w.
Proof. destruct w as [[now key] value]. apply blen_encodeKV. Qed.

Lemma recordSize_pos (w : write) : 12 <= recordSize w.
Proof.
  destruct w as [[now key] value]. rewrite recordSize_eq.
  pose proof (len_nonneg key). pose proof (len_nonneg value). lia.
Qed.

(** What [Set] does on an open store: the record goes to the end of the
    file, the offset follows it there, and the index entry of the key takes
    the offset the handle had before the write. *)
Lemma Set_opened (d : DiskStore) (now : Z) (key value : string) :
  opened d ->
  Set_ d now key value =
    Ok (mkDiskStore
          (OS.mkFile (OS.data (file d) ++ record (now, key, value))
             (blen (OS.data (file d) ++ record (now, key, value))) false)
          (<[key := mkKeyEntry (uint32 now) (uint32 (OS.offset (file d)))
                      (uint32 (recordSize (now, key, value)))]> (keyStore d))).
Proof.
  intros [Hc Ho]. unfold Set_, record, recordSize.
  destruct (encodeKV (uint32 now) key value) as [size bytes] eqn:E.
  unfold OS.Seek, OS.Write. rewrite Hc. cbn [OS.closed OS.data OS.offset].
  rewrite Z.add_0_r.
  destruct (Z.ltb_spec (OS.offset (file d)) 0); [lia|].
  reflexivity.
Qed.

Lemma Set_closed (d : DiskStore) (now : Z) (key value : string) :
  OS.closed (file d) = true -> Set_ d now key value = Fatal FailedToSeek.
Proof.
  intros Hc. unfold Set_.
  destruct (encodeKV (uint32 now) key value) as [size bytes].
  unfold OS.Seek. rewrite Hc. reflexivity.
Qed.

(** [Set] succeeds exactly on a store whose handle is open. *)
Lemma Set_Ok_inv (d d' : DiskStore) (now : Z) (key value : string) :
  Set_ d now key value = Ok d' ->
  OS.closed (file d) = false /\
  keyStore d' =
    <[key := mkKeyEntry (uint32 now) (uint32 (OS.offset (file d)))
               (uint32 (recordSize (now, key, value)))]> (keyStore d) /\
  OS.data (file d') = OS.data (file d) ++ record (now, key, value) /\
  OS.offset (file d') = blen (OS.data (file d')) /\
  OS.closed (file d') = false.
Proof.
  unfold Set_, record, recordSize.
  destruct (encodeKV (uint32 now) key value) as [size bytes] eqn:E.
  destruct (OS.Seek (file d) 0 OS.SeekCurrent) as [e|[pos f1]] eqn:Hs;
    [discriminate|].
  apply Seek_inr in Hs as (Hc & Hd1 & Hc1 & _ & _ & ->).
  unfold OS.Write. rewrite Hc1. intros [= <-]. cbn.
  rewrite Z.add_0_r, Hd1. done.
Qed.

(** Reading through an index entry that points at a whole record of the
    file returns that record's value, whichever key the record has. *)
Lemma Get_at_record (d : DiskStore) (key : string) (e : KeyEntry)
    (pre rest : list byte) (t : Z) (k v : string) :
  keyStore d !! key = Some e ->
  OS.closed (file d) = false ->
  OS.data (file d) = pre ++ snd (encodeKV t k v) ++ rest ->
  position e = blen pre ->
  totalSize e = fst (encodeKV t k v) ->
  len k < 2 ^ 32 -> len v < 2 ^ 32 ->
  Get d key =
    Ok (v, mkDiskStore
             (OS.mkFile (OS.data (file d)) (position e + totalSize e) false)
             (keyStore d)).
Proof.
  intros He Hc Hd Hp Hs Hk Hv. unfold Get. rewrite He.
  unfold OS.Seek. rewrite Hc. rewrite Hp.
  pose proof (blen_nonneg pre) as Hpre.
  destruct (Z.ltb_spec (blen pre) 0); [lia|].
  unfold OS.ReadFull. cbn [OS.closed OS.data OS.offset].
  pose proof (len_nonneg k). pose proof (len_nonneg v).
  rewrite Hs, fst_encodeKV.
  destruct (Z.leb_spec (12 + len k + len v) 0); [lia|].
  rewrite Hd.
  assert (Z.to_nat (blen pre) = length pre) as -> by (unfold blen; lia).
  rewrite drop_app_length, blen_app, blen_encodeKV, fst_encodeKV.
  pose proof (blen_nonneg rest).
  destruct (Z.leb_spec (12 + len k + len v) (12 + len k + len v + blen rest));
    [|lia].
  assert (Z.to_nat (12 + len k + len v) = length (snd (encodeKV t k v))) as ->.
  { pose proof (blen_encodeKV t k v) as Hb. rewrite fst_encodeKV in Hb.
    unfold blen in Hb. lia. }
  rewrite take_app_length.
  rewrite <- (app_nil_r (snd (encodeKV t k v))).
  rewrite decodeKV_encodeKV_app by done. reflexivity.
Qed.

(** A key that is not in the index: the empty string, and the file is not
    touched. *)
Lemma Get_absent (d : DiskStore) (key : string) :
  keyStore d !! key = None -> Get d key = Ok (EmptyString, d).
Proof. intros H. unfold Get. by rewrite H. Qed.

(** [Get] changes neither the index nor the contents of the file. *)
Lemma Get_Ok_inv (d d' : DiskStore) (key value : string) :
  Get d key = Ok (value, d') ->
  keyStore d' = keyStore d /\ OS.data (file d') = OS.data (file d) /\
  OS.closed (file d') = OS.closed (file d).
Proof.
  unfold Get. destruct (keyStore d !! key) as [e|]; [|by intros [= <- <-]].
  destruct (OS.Seek _ _ _) as [?|[p f1]] eqn:Hs; [discriminate|].
  apply Seek_inr in Hs as (Hc & Hd1 & Hc1 & _).
  destruct (OS.ReadFull _ _) as [?|[buf f2]] eqn:Hr; [discriminate|].
  apply ReadFull_inr in Hr as (Hd2 & Hc2 & _).
  destruct (decodeKV buf) as [?|[[? ?] v]]; [discriminate|].
  intros [= <- <-]. cbn. split; [done|]. split; congruence.
Qed.

(** On a store whose offset is at the end of the file, the entry that [Set]
    records is the place of the record it wrote, and a [Get] of the key
    right after it returns the value and leaves the store as it was. *)
Lemma Set_then_Get_atEnd (d : DiskStore) (now : Z) (key value : string) :
  opened d -> atEnd d ->
  blen (OS.data (file d)) + recordSize (now, key, value) < 2 ^ 32 ->
  exists d', Set_ d now key value = Ok d' /\ Get d' key = Ok (value, d')
             /\ opened d' /\ atEnd d'.
Proof.
  intros Hop Hend Hsz. eexists. split; [by apply Set_opened|].
  pose proof (blen_nonneg (OS.data (file d))) as Hd0.
  pose proof (recordSize_pos (now, key, value)) as Hrs.
  pose proof (len_nonneg key). pose proof (len_nonneg value).
  split; [|split; [split; [done|apply blen_nonneg]|reflexivity]].
  rewrite (Get_at_record _ key
             (mkKeyEntry (uint32 now) (uint32 (OS.offset (file d)))
                (uint32 (recordSize (now, key, value))))
             (OS.data (file d)) [] (uint32 now) key value).
  - cbn [position totalSize file keyStore OS.data].
    rewrite blen_app, blen_record, Hend.
    rewrite !uint32_small by lia. reflexivity.
  - apply lookup_insert_eq.
  - reflexivity.
  - cbn [file OS.data]. by rewrite app_nil_r.
  - cbn [position]. rewrite Hend. apply uint32_small. lia.
  - cbn [totalSize].
    change (fst (encodeKV (uint32 now) key value))
      with (recordSize (now, key, value)).
    apply uint32_small. lia.
  - rewrite recordSize_eq in Hsz. lia.
  - rewrite recordSize_eq in Hsz. lia.
Qed.

End SetGet.

(* ------------------------------------------------------------------------- *)
(** ** Writing a key and reading it back *)

(** [written] is the store the code reaches by [Set("a","1")] on a new file. *)
Lemma written_reached :
  bind (NewDiskStore None) (fun d => Set_ d 1 "a" "1") = Ok written.
Proof. vm_compute. reflexivity. Qed.

(** C1. At the store [afterRead], which is open, [Set("c","3")] followed at
    once by [Get("c")] returns "2", the value of the record of "b", and not
    the "3" that was written; the same happens on a reopened store, where
    [Set("b","2")] then [Get("b")] returns "1". *)
Theorem Set_then_Get_returns_other_value :
  bind afterRead (fun d =>
    bind (Set_ d 3 "c" "3") (fun d' => value_of (Get d' "c")))
  = Ok "2"%string
  /\ bind reopened (fun d =>
       bind (Set_ d 2 "b" "2") (fun d' => value_of (Get d' "b")))
     = Ok "1"%string.
Proof. split; vm_compute; reflexivity. Qed.

(** On the reopened store the defect also separates the store from its own
    log: after [Set("b","2")] the store reads "1" for "b", while a store
    reopened on the file it leaves reads "2". *)
Lemma reopened_store_disagrees_with_its_log :
  bind reopened (fun d =>
    bind (Set_ d 2 "b" "2") (fun d1 =>
      Ok (value_of (Get d1 "b"),
          bind (NewDiskStore (Some (OS.data (file (snd (Close d1))))))
            (fun d2 => value_of (Get d2 "b")))))
  = Ok (Ok "1"%string, Ok "2"%string).
Proof. vm_compute. reflexivity. Qed.

(** C3. On a store opened on an existing log (the file that [Set("a","1")]
    left), [Set("b","2")] then [Close] and reopening the file: [Get("b")]
    returns "2" on the reopened store but "1" on the store before [Close],
    whose index entry for "b" has position 0 where the reopened index has 14,
    the position of the record of "b". *)
Theorem store_on_existing_log_disagrees_with_reopened :
  bind reopened (fun d =>
    bind (Set_ d 2 "b" "2") (fun d1 =>
      bind (NewDiskStore (Some (OS.data (file (snd (Close d1)))))) (fun d2 =>
        Ok (value_of (Get d1 "b"), value_of (Get d2 "b"),
            position <$> keyStore d1 !! "b"%string,
            position <$> keyStore d2 !! "b"%string))))
  = Ok (Ok "1"%string, Ok "2"%string, Some 0, Some 14).
Proof. vm_compute. reflexivity. Qed.

(** C6. At the store [afterRead] the file ends at offset 28, and
    [Set("c","3")] appends its record there, but the index entry it records
    for "c" has position 14, the offset the earlier [Get] left in the
    handle. *)
Theorem Set_records_offset_not_end_of_file :
  bind afterRead (fun d => Ok (blen (OS.data (file d)), OS.offset (file d)))
  = Ok (28, 14)
  /\ bind afterRead (fun d =>
       bind (Set_ d 3 "c" "3") (fun d' =>
         Ok (position <$> keyStore d' !! "c"%string,
             drop 28 (OS.data (file d')))))
     = Ok (Some 14, record (3, "c"%string, "3"%string)).
Proof. split; vm_compute; reflexivity. Qed.

Lemma len_nulls (n : nat) : len (nulls n) = Z.of_nat n.
Proof.
  unfold len. f_equal. induction n as [|n IH]; [reflexivity|].
  cbn [nulls String.length]. by rewrite IH.
Qed.

Lemma len_bigValue : len bigValue = 2 ^ 32 - 41.
Proof. unfold bigValue. rewrite len_nulls, Z2Nat.id; lia. Qed.

(** With a value [big] that brings the file to 14 bytes below 4 GiB, the
    second of two [Set]s of "k" starts at offset 2^32, which [uint32] turns
    into position 0, the place of the record of "b". *)
Lemma Get_after_position_wraps (big : string) :
  len big = 2 ^ 32 - 41 ->
  bind (NewDiskStore None) (fun d0 =>
    bind (Set_ d0 2 "b" "2") (fun d1 =>
      bind (Set_ d1 3 "c" big) (fun d2 =>
        bind (Set_ d2 4 "k" "x") (fun d3 =>
          bind (Set_ d3 5 "k" "y") (fun d4 => value_of (Get d4 "k"))))))
  = Ok "2"%string.
Proof.
  intros Hbig. cbn [NewDiskStore bind default].
  rewrite Set_opened
    by (split; [reflexivity
               | cbn [file OS.offset OS.Open]; first [apply blen_nonneg | lia]]).
  cbn [bind].
  rewrite Set_opened
    by (split; [reflexivity
               | cbn [file OS.offset OS.Open]; first [apply blen_nonneg | lia]]).
  cbn [bind].
  rewrite Set_opened
    by (split; [reflexivity
               | cbn [file OS.offset OS.Open]; first [apply blen_nonneg | lia]]).
  cbn [bind].
  rewrite Set_opened
    by (split; [reflexivity
               | cbn [file OS.offset OS.Open]; first [apply blen_nonneg | lia]]).
  cbn [bind].
  cbn [file keyStore OS.data OS.offset OS.Open].
  unfold value_of.
  rewrite (Get_at_record _ "k"
             (mkKeyEntry (uint32 5)
                (uint32 (blen ((([] ++ record (2, "b", "2")%string)
                                  ++ record (3, "c"%string, big))
                                 ++ record (4, "k", "x")%string)))
                (uint32 (recordSize (5, "k", "y")%string)))
             [] (record (3, "c"%string, big) ++ record (4, "k", "x")%string
                   ++ record (5, "k", "y")%string)
             (uint32 2) "b" "2").
  - reflexivity.
  - apply lookup_insert_eq.
  - reflexivity.
  - cbn [file OS.data]. rewrite <- !app_assoc. reflexivity.
  - cbn [position]. rewrite !blen_app, !blen_record, !recordSize_eq, Hbig.
    reflexivity.
  - reflexivity.
  - reflexivity.
  - reflexivity.
Qed.

(** C4, as stated, fails. On the open store that [Set("b","2")] and
    [Set("c", bigValue)] leave on a new file, whose file is 14 bytes short of
    4 GiB, [Set("k","x")] followed by [Set("k","y")] and then [Get("k")]
    returns "2", the value of the record of "b", and not "y": the second
    record of "k" starts at offset 2^32 and its index entry holds [uint32] of
    that, 0. *)
Lemma last_write_lost_past_4GiB :
  bind (NewDiskStore None) (fun d0 =>
    bind (Set_ d0 2 "b" "2") (fun d1 =>
      bind (Set_ d1 3 "c" bigValue) (fun d2 =>
        bind (Set_ d2 4 "k" "x") (fun d3 =>
          bind (Set_ d3 5 "k" "y") (fun d4 => value_of (Get d4 "k"))))))
  = Ok "2"%string.
Proof. exact (Get_after_position_wraps bigValue len_bigValue). Qed.

(** C4, as the code has it. On every open store, [Set(key, v1)] followed by
    [Set(key, v2)] and
    then [Get(key)] returns [v2] (as long as the file stays below the 4 GiB
    that the 32-bit index fields can address).  The file is then the old
    contents followed by the first and the second record, so the first record
    is still there, byte for byte, and the index entry of [key] holds the
    position of the second record, not of the first. *)
Theorem last_write_wins (d : DiskStore) (now1 now2 : Z) (key v1 v2 : string) :
  opened d ->
  blen (OS.data (file d)) + recordSize (now1, key, v1)
    + recordSize (now2, key, v2) < 2 ^ 32 ->
  exists d1 d2,
    Set_ d now1 key v1 = Ok d1 /\ Set_ d1 now2 key v2 = Ok d2
    /\ Get d2 key = Ok (v2, d2)
    /\ OS.data (file d2) =
         OS.data (file d) ++ record (now1, key, v1) ++ record (now2, key, v2)
    /\ position <$> keyStore d2 !! key =
         Some (blen (OS.data (file d)) + recordSize (now1, key, v1)).
Proof.
  intros Hop Hsz.
  pose proof (blen_nonneg (OS.data (file d))) as Hd0.
  pose proof (recordSize_pos (now1, key, v1)) as Hr1.
  pose proof (recordSize_pos (now2, key, v2)) as Hr2.
  eexists. 
  destruct (Set_then_Get_atEnd
              (mkDiskStore
                 (OS.mkFile (OS.data (file d) ++ record (now1, key, v1))
                    (blen (OS.data (file d) ++ record (now1, key, v1))) false)
                 (<[key := mkKeyEntry (uint32 now1) (uint32 (OS.offset (file d)))
                             (uint32 (recordSize (now1, key, v1)))]> (keyStore d)))
              now2 key v2) as (d2 & HS2 & HG2 & Hop2 & Hend2).
  { split; [done|apply blen_nonneg]. }
  { reflexivity. }
  { cbn [file OS.data]. rewrite blen_app, blen_record. lia. }
  exists d2. split; [by apply Set_opened|]. split; [exact HS2|].
  split; [exact HG2|].
  apply Set_Ok_inv in HS2 as (_ & Hks & Hdat & _).
  split.
  - rewrite Hdat. cbn [file OS.data]. by rewrite <- app_assoc.
  - rewrite Hks, lookup_insert_eq. cbn [fmap option_fmap option_map position file OS.offset OS.data].
    rewrite blen_app, blen_record. f_equal. apply uint32_small. lia.
Qed.

Lemma last_write_wins_witness :
  exists d1 d2,
    Set_ (mkDiskStore (OS.Open []) ∅) 1 "k" "old" = Ok d1
    /\ Set_ d1 2 "k" "new" = Ok d2
    /\ Get d2 "k" = Ok ("new"%string, d2)
    /\ OS.data (file d2) =
         [] ++ record (1, "k"%string, "old"%string)
            ++ record (2, "k"%string, "new"%string)
    /\ position <$> keyStore d2 !! "k"%string =
         Some (blen [] + recordSize (1, "k"%string, "old"%string)).
Proof.
  apply (last_write_wins (mkDiskStore (OS.Open []) ∅) 1 2 "k" "old" "new").
  - split; [reflexivity | vm_compute; discriminate].
  - vm_compute. reflexivity.
Defined.

(* ------------------------------------------------------------------------- *)
(** ** Misses, and calls after Close *)

(** C2, as stated, fails. On a new store, [Get("k")] for the key never written and [Get("k")] after
    [Set("k", "")] both return the empty string: the source's [Get] returns a
    Go string and has no separate result for a miss. *)
Lemma Get_miss_equals_stored_empty_value :
  bind (NewDiskStore None) (fun d => value_of (Get d "k")) = Ok ""%string
  /\ bind (NewDiskStore None) (fun d =>
       bind (Set_ d 1 "k" "") (fun d' => value_of (Get d' "k")))
     = Ok ""%string.
Proof. split; vm_compute; reflexivity. Qed.

(** C2, as the code has it. For every key that is not in the index, which
    includes every key never written, [Get] returns the empty string and
    leaves the store as it was; and after [Set(key, "")] on an open store
    whose offset is at the end of a file below 4 GiB, [Get(key)] returns the
    empty string as well, so a miss and a stored empty value give the same
    result. *)
Theorem Get_miss_returns_empty_string (d : DiskStore) (key : string) :
  keyStore d !! key = None ->
  Get d key = Ok (""%string, d)
  /\ forall now : Z,
       opened d -> atEnd d ->
       blen (OS.data (file d)) + recordSize (now, key, ""%string) < 2 ^ 32 ->
       exists d', Set_ d now key "" = Ok d'
                  /\ value_of (Get d' key) = Ok ""%string.
Proof.
  intros Hnone. split; [by apply Get_absent|].
  intros now Hop Hend Hsz.
  destruct (Set_then_Get_atEnd d now key "" Hop Hend Hsz)
    as (d' & HS & HG & _).
  exists d'. split; [exact HS|]. unfold value_of. by rewrite HG.
Qed.

Lemma Get_miss_returns_empty_string_witness :
  Get (mkDiskStore (OS.Open []) ∅) "k" = Ok (""%string, mkDiskStore (OS.Open []) ∅)
  /\ exists d', Set_ (mkDiskStore (OS.Open []) ∅) 1 "k" "" = Ok d'
                /\ value_of (Get d' "k") = Ok ""%string.
Proof.
  destruct (Get_miss_returns_empty_string (mkDiskStore (OS.Open []) ∅) "k")
    as [Hmiss Hempty]; [reflexivity|].
  split; [exact Hmiss|].
  apply (Hempty 1).
  - split; [reflexivity | vm_compute; discriminate].
  - reflexivity.
  - vm_compute. reflexivity.
Defined.

(** C9, as stated, fails. After [Close] on a new store, [Get] of a key that is not in the index
    returns the empty string: the call does not fail. *)
Lemma Get_after_Close_does_not_fail :
  bind (NewDiskStore None) (fun d => value_of (Get (snd (Close d)) "k"))
  = Ok ""%string.
Proof. vm_compute. reflexivity. Qed.

Lemma Close_closed (d : DiskStore) :
  OS.closed (file (snd (Close d))) = true
  /\ keyStore (snd (Close d)) = keyStore d
  /\ OS.data (file (snd (Close d))) = OS.data (file d).
Proof.
  unfold Close, OS.Close. destruct (OS.closed (file d)) eqn:Hc; cbn; auto.
Qed.

Lemma Get_closed (d : DiskStore) (key : string) :
  OS.closed (file d) = true -> is_Some (keyStore d !! key) ->
  Get d key = Fatal ErrorSeekingToValue.
Proof.
  intros Hc [e He]. unfold Get, OS.Seek. by rewrite He, Hc.
Qed.

(** C9, as the code has it. After [Close] the handle is closed whatever
    [Close] returned; from then on every [Set] ends the process at its seek
    and every [Get] of a key that is in the index ends the process at its seek,
    while a [Get] of a key that is not in the index returns the empty string
    without touching the file. *)
Theorem calls_after_Close (d d' : DiskStore) (ok : bool) :
  Close d = (ok, d') ->
  (forall (now : Z) (key value : string),
      Set_ d' now key value = Fatal FailedToSeek)
  /\ (forall key : string,
        is_Some (keyStore d' !! key) -> Get d' key = Fatal ErrorSeekingToValue)
  /\ (forall key : string,
        keyStore d' !! key = None -> Get d' key = Ok (""%string, d')).
Proof.
  intros HC. destruct (Close_closed d) as (Hc & _). rewrite HC in Hc. cbn in Hc.
  split; [|split].
  - intros. by apply Set_closed.
  - intros. by apply Get_closed.
  - intros. by apply Get_absent.
Qed.

Lemma calls_after_Close_witness :
  Set_ (snd (Close written)) 2 "b" "2" = Fatal FailedToSeek
  /\ Get (snd (Close written)) "a" = Fatal ErrorSeekingToValue
  /\ Get (snd (Close written)) "zz" = Ok (""%string, snd (Close written)).
Proof.
  destruct (calls_after_Close written (snd (Close written)) true)
    as (HSet & Hin & Hout); [reflexivity|].
  split; [apply HSet|]. split.
  - apply Hin. vm_compute. eexists. reflexivity.
  - apply Hout. vm_compute. reflexivity.
Defined.

(* ------------------------------------------------------------------------- *)
(** ** The keys of the index *)

Lemma step_keys (d d' : DiskStore) (o : op) (key : string) :
  step d o = Ok d' -> is_Some (keyStore d !! key) -> is_Some (keyStore d' !! key).
Proof.
  destruct o as [k|now k v]; cbn [step].
  - unfold state_of. destruct (Get d k) as [[v d1]|e] eqn:HG; [|discriminate].
    intros [= <-]. apply Get_Ok_inv in HG as (-> & _). done.
  - intros HS. apply Set_Ok_inv in HS as (_ & -> & _).
    intros Hin. destruct (decide (k = key)) as [->|Hne].
    + rewrite lookup_insert_eq. by eexists.
    + by rewrite lookup_insert_ne.
Qed.

Lemma run_keys (os : list op) (d d' : DiskStore) (key : string) :
  run d os = Ok d' -> is_Some (keyStore d !! key) -> is_Some (keyStore d' !! key).
Proof.
  revert d. induction os as [|o os IH]; intros d; cbn [run].
  - by intros [= <-].
  - destruct (step d o) as [d1|e] eqn:Hstep; [|discriminate]. cbn [bind].
    intros Hrun Hin. eapply IH; [exact Hrun|]. by eapply step_keys.
Qed.

(** C10. Along every sequence of [Get] and [Set] calls that the store
    completes, the keys of the index only grow: a key in the index before the
    sequence is in the index after it, and a key that a successful [Set] has
    just written is in the index after every sequence of calls that
    follows. *)
Theorem index_keys_only_grow (d d' : DiskStore) (os : list op) :
  run d os = Ok d' ->
  (forall key : string,
      is_Some (keyStore d !! key) -> is_Some (keyStore d' !! key))
  /\ (forall (d0 : DiskStore) (now : Z) (key value : string),
        Set_ d0 now key value = Ok d -> is_Some (keyStore d' !! key)).
Proof.
  intros Hrun. split.
  - intros key. by apply run_keys with (os := os).
  - intros d0 now key value HS. apply run_keys with (os := os) (d := d); [done|].
    apply Set_Ok_inv in HS as (_ & -> & _). rewrite lookup_insert_eq. by eexists.
Qed.

Lemma index_keys_only_grow_witness :
  exists d',
    run written [OpGet "a"; OpSet 2 "b" "2"; OpGet "zz"] = Ok d'
    /\ (forall key : string,
          is_Some (keyStore written !! key) -> is_Some (keyStore d' !! key))
    /\ is_Some (keyStore d' !! "a"%string).
Proof.
  eexists. split; [vm_compute; reflexivity|].
  destruct (index_keys_only_grow written _
              [OpGet "a"; OpSet 2 "b" "2"; OpGet "zz"] eq_refl)
    as [Hkeep Hset].
  split; [exact Hkeep|].
  apply (Hset (mkDiskStore (OS.Open []) ∅) 1 "a" "1")%string.
  vm_compute. reflexivity.
Defined.

(* ------------------------------------------------------------------------- *)
(** ** The recovery scan *)

Section Recovery.

(** The loop, one turn at a time. *)
Lemma scanLoop_turn (f : OS.File) (ks : gmap string KeyEntry) :
  scanLoop f ks =
    match scanRecord f ks with
    | Fatal e => Fatal e
    | Ok None => Ok ks
    | Ok (Some (f', ks')) => scanLoop f' ks'
    end.
Proof.
  rewrite scanLoop_equation_1.
  destruct (inspect (scanRecord f ks)) as [[[[f' ks']|]|e] Hr];
    cbn [scanLoop_unfold_clause_1]; rewrite Hr; reflexivity.
Qed.

(** Reading a stretch of the file that starts at the handle's offset. *)
Lemma ReadFull_at (contents pre body rest : list byte) (off : Z) :
  contents = pre ++ body ++ rest -> off = blen pre ->
  OS.ReadFull (OS.mkFile contents off false) (blen body) =
    inr (body, OS.mkFile contents (off + blen body) false).
Proof.
  intros -> ->. unfold OS.ReadFull. cbn [OS.closed OS.data OS.offset].
  destruct (Z.leb_spec (blen body) 0) as [H0|H0].
  - assert (body = []) as -> by (destruct body; [done|unfold blen in H0; simpl length in H0; lia]).
    cbn. by rewrite Z.add_0_r.
  - assert (Z.to_nat (blen pre) = length pre) as -> by (unfold blen; lia).
    rewrite drop_app_length, blen_app.
    pose proof (blen_nonneg rest).
    destruct (Z.leb_spec (blen body) (blen body + blen rest)); [|lia].
    assert (Z.to_nat (blen body) = length body) as -> by (unfold blen; lia).
    by rewrite take_app_length.
Qed.

(** A turn of the loop at the first byte of a header that is followed by
    the whole key: the value bytes are not read, the handle moves past them
    by the size the header declares, whether or not the file has them. *)
Lemma scanRecord_at_header (pre rest : list byte) (t valueSize : Z)
    (key : string) (ks : gmap string KeyEntry) :
  len key < 2 ^ 32 -> 0 <= valueSize < 2 ^ 32 ->
  scanRecord
    (OS.mkFile
       (pre ++ encodeHeader t (len key) valueSize
            ++ list_byte_of_string key ++ rest) (blen pre) false) ks
  = Ok (Some
          (OS.mkFile
             (pre ++ encodeHeader t (len key) valueSize
                  ++ list_byte_of_string key ++ rest)
             (blen pre + (12 + len key + valueSize)) false,
           <[key := mkKeyEntry (uint32 t) (uint32 (blen pre))
                      (uint32 (12 + len key + valueSize))]> ks)).
Proof.
  intros Hk Hv. pose proof (len_nonneg key). pose proof (blen_nonneg pre).
  set (hdr := encodeHeader t (len key) valueSize).
  set (kb := list_byte_of_string key).
  set (contents := pre ++ hdr ++ kb ++ rest).
  unfold scanRecord.
  change headerSize with (blen hdr).
  rewrite (ReadFull_at contents pre hdr (kb ++ rest) (blen pre));
    [| reflexivity | reflexivity].
  rewrite <- (app_nil_r hdr) at 1. unfold hdr at 1.
  rewrite decodeHeader_encodeHeader.
  rewrite (uint32_small (len key)), (uint32_small valueSize) by lia.
  replace (len key) with (blen kb) at 1
    by (subst kb; apply blen_list_byte_of_string).
  rewrite (ReadFull_at contents (pre ++ hdr) kb rest);
    [| subst contents; rewrite <- !app_assoc; reflexivity
     | by rewrite blen_app].
  unfold OS.Seek. cbn [OS.closed OS.offset OS.data].
  change (blen hdr) with 12.
  assert (blen kb = len key) as -> by apply blen_list_byte_of_string.
  destruct (Z.ltb_spec (blen pre + 12 + len key + valueSize) 0); [lia|].
  destruct (Z.ltb_spec (blen pre + 0) 0); [lia|].
  subst kb. rewrite string_of_list_byte_of_string.
  rewrite Z.add_0_r. unfold headerSize.
  do 4 f_equal. lia.
Qed.

(** A turn of the loop at the first byte of a whole record: the handle moves
    to the end of the record and the index takes the entry [Set] recorded
    when it wrote the record at the end of the file. *)
Lemma scanRecord_at_record (pre rest : list byte) (now : Z)
    (key value : string) (ks : gmap string KeyEntry) :
  len key < 2 ^ 32 -> len value < 2 ^ 32 ->
  scanRecord
    (OS.mkFile (pre ++ record (now, key, value) ++ rest) (blen pre) false) ks
  = Ok (Some
          (OS.mkFile (pre ++ record (now, key, value) ++ rest)
             (blen pre + recordSize (now, key, value)) false,
           <[key := mkKeyEntry (uint32 now) (uint32 (blen pre))
                      (uint32 (recordSize (now, key, value)))]> ks)).
Proof.
  intros Hk Hv. pose proof (len_nonneg value).
  change (record (now, key, value))
    with (encodeHeader (uint32 now) (len key) (len value)
            ++ list_byte_of_string key ++ list_byte_of_string value).
  rewrite <- !app_assoc.
  rewrite scanRecord_at_header by lia.
  by rewrite uint32_idemp, recordSize_eq.
Qed.

(** Where a turn of the loop stops the scan: the two outcomes of a header
    read that finds fewer than 12 bytes. *)
Lemma scanRecord_end (f : OS.File) (ks : gmap string KeyEntry) :
  OS.closed f = false ->
  (available f = 0 -> scanRecord f ks = Ok None)
  /\ (1 <= available f <= 11 -> scanRecord f ks = Fatal CouldNotReadHeader).
Proof.
  intros Hc. unfold available, scanRecord, OS.ReadFull. rewrite Hc.
  change (headerSize <=? 0) with false. cbn match. unfold headerSize.
  split; intros Hav.
  - destruct (Z.leb_spec 12 (blen (drop (Z.to_nat (OS.offset f)) (OS.data f))));
      [lia|].
    destruct (drop _ _); [done|]. unfold blen in *. simpl length in *. lia.
  - destruct (Z.leb_spec 12 (blen (drop (Z.to_nat (OS.offset f)) (OS.data f))));
      [lia|].
    destruct (drop _ _); [unfold blen in *; simpl length in *; lia|done].
Qed.

End Recovery.

(** C8. In the recovery scan, a turn of the loop that starts where fewer
    than 12 bytes of the file are left ends the scan: normally, with the index
    built so far, when no byte is left, and by ending the process with
    "Could not read header" when between 1 and 11 bytes are left. *)
Theorem scan_stops_at_end_or_rejects_short_header
    (f : OS.File) (ks : gmap string KeyEntry) :
  OS.closed f = false -> available f < headerSize ->
  scanLoop f ks =
    if available f =? 0 then Ok ks else Fatal CouldNotReadHeader.
Proof.
  intros Hc Hav. destruct (scanRecord_end f ks Hc) as [H0 H1].
  assert (0 <= available f) by apply blen_nonneg.
  unfold headerSize in Hav. rewrite scanLoop_turn.
  destruct (Z.eqb_spec (available f) 0) as [Hz|Hnz].
  - by rewrite H0.
  - rewrite H1; [done|lia].
Qed.

Lemma scan_stops_at_end_or_rejects_short_header_witness :
  scanLoop (OS.Open []) ∅ = Ok ∅
  /\ scanLoop (OS.mkFile [x01; x00; x00; x00; x01] 0 false) ∅
     = Fatal CouldNotReadHeader
  /\ scanLoop (OS.mkFile [x01; x00; x00; x00; x01] 5 false) ∅ = Ok ∅.
Proof.
  split; [|split].
  - apply (scan_stops_at_end_or_rejects_short_header (OS.Open []) ∅);
      vm_compute; reflexivity.
  - apply (scan_stops_at_end_or_rejects_short_header
             (OS.mkFile [x01; x00; x00; x00; x01] 0 false) ∅);
      vm_compute; reflexivity.
  - apply (scan_stops_at_end_or_rejects_short_header
             (OS.mkFile [x01; x00; x00; x00; x01] 5 false) ∅);
      vm_compute; reflexivity.
Defined.

(* ------------------------------------------------------------------------- *)
(** ** Recovery of a log that Set wrote *)

Section Replay.

Lemma log_cons (w : write) (ws : list write) : log (w :: ws) = record w ++ log ws.
Proof. reflexivity. Qed.

Lemma log_app (ws1 ws2 : list write) : log (ws1 ++ ws2) = log ws1 ++ log ws2.
Proof. unfold log. by rewrite map_app, concat_app. Qed.

Lemma writes_app (ws1 ws2 : list write) (d : DiskStore) :
  writes d (ws1 ++ ws2) = bind (writes d ws1) (fun d' => writes d' ws2).
Proof.
  revert d. induction ws1 as [|[[now key] value] ws1 IH]; intros d; [done|].
  cbn [app writes]. destruct (Set_ d now key value) as [d1|e]; [|done].
  cbn [bind]. apply IH.
Qed.

(** Every record of a log below 4 GiB has a key and a value that fit the
    size fields of its header. *)
Lemma recordSize_fits (now : Z) (key value : string) :
  recordSize (now, key, value) < 2 ^ 32 -> len key < 2 ^ 32 /\ len value < 2 ^ 32.
Proof.
  rewrite recordSize_eq. pose proof (len_nonneg key).
  pose proof (len_nonneg value). lia.
Qed.

(** From a store whose offset is at the end of its file, a sequence of calls
    of [Set] completes and appends the log of the calls; and the recovery
    scan, started on those same bytes with the index the store had, arrives
    at the end of the log with the index the calls built. *)
Lemma writes_replayed (ws : list write) :
  forall (d : DiskStore) (tail : list byte),
    opened d -> atEnd d ->
    blen (log ws) < 2 ^ 32 ->
    exists d',
      writes d ws = Ok d' /\ opened d' /\ atEnd d'
      /\ OS.data (file d') = OS.data (file d) ++ log ws
      /\ scanLoop
           (OS.mkFile (OS.data (file d) ++ log ws ++ tail)
              (blen (OS.data (file d))) false) (keyStore d)
         = scanLoop
             (OS.mkFile (OS.data (file d) ++ log ws ++ tail)
                (blen (OS.data (file d'))) false) (keyStore d').
Proof.
  induction ws as [|[[now key] value] ws IH]; intros d tail Hop Hend Hsz.
  - exists d. cbn [writes log map concat]. rewrite app_nil_r. done.
  - rewrite log_cons, blen_app, blen_record in Hsz.
    pose proof (blen_nonneg (log ws)) as Hl.
    pose proof (recordSize_pos (now, key, value)) as Hr.
    destruct (recordSize_fits now key value) as [Hk Hv]; [lia|].
    cbn [writes]. rewrite Set_opened by done. cbn [bind].
    set (d1 := mkDiskStore _ _).
    destruct (IH d1 tail) as (d' & Hw & Hop' & Hend' & Hdat & Hscan).
    { split; [done|apply blen_nonneg]. }
    { reflexivity. }
    { lia. }
    exists d'. split; [exact Hw|]. split; [exact Hop'|]. split; [exact Hend'|].
    subst d1. cbn [file keyStore OS.data] in Hdat, Hscan.
    split; [by rewrite Hdat, log_cons, <- app_assoc|].
    rewrite log_cons, <- !app_assoc. rewrite <- !app_assoc in Hscan.
    rewrite scanLoop_turn, scanRecord_at_record by done.
    rewrite blen_app, blen_record in Hscan.
    unfold atEnd in Hend. rewrite Hend in Hscan. exact Hscan.
Qed.

Lemma scanLoop_end (f : OS.File) (ks : gmap string KeyEntry) :
  OS.closed f = false -> available f = 0 -> scanLoop f ks = Ok ks.
Proof.
  intros Hc Hav. rewrite scanLoop_turn.
  destruct (scanRecord_end f ks Hc) as [-> _]; done.
Qed.

Lemma available_at_end (contents : list byte) :
  available (OS.mkFile contents (blen contents) false) = 0.
Proof.
  unfold available. cbn [OS.offset OS.data].
  assert (Z.to_nat (blen contents) = length contents) as ->
    by (unfold blen; lia).
  by rewrite drop_all.
Qed.

(** Recovery of the log of a sequence of calls of [Set] on a new file builds
    the index those calls built. *)
Lemma createKeyStore_log (ws : list write) :
  blen (log ws) < 2 ^ 32 ->
  exists d,
    writes (mkDiskStore (OS.Open []) ∅) ws = Ok d /\ opened d /\ atEnd d
    /\ OS.data (file d) = log ws
    /\ createKeyStore (log ws) ∅ = Ok (keyStore d).
Proof.
  intros Hsz.
  destruct (writes_replayed ws (mkDiskStore (OS.Open []) ∅) [])
    as (d & Hw & Hop & Hend & Hdat & Hscan);
    [split; [done|cbn; lia] | reflexivity | done |].
  exists d. cbn [file keyStore OS.data OS.Open app] in Hdat, Hscan.
  rewrite app_nil_r in Hscan. change (blen []) with 0 in Hscan.
  do 4 (split; [done|]).
  unfold createKeyStore, OS.Open. rewrite Hscan, Hdat.
  apply scanLoop_end; [done|apply available_at_end].
Qed.

(** What [Get] returns depends on the index, the contents of the file and
    whether the handle is closed, not on the handle's offset. *)
Lemma Get_value_ext (d d' : DiskStore) (key : string) :
  keyStore d' = keyStore d -> OS.data (file d') = OS.data (file d) ->
  OS.closed (file d') = OS.closed (file d) ->
  value_of (Get d' key) = value_of (Get d key).
Proof.
  intros Hks Hdat Hc. unfold Get. rewrite Hks.
  destruct (keyStore d !! key) as [e|]; [|done].
  unfold OS.Seek. rewrite Hc, Hdat.
  destruct (OS.closed (file d)); [done|].
  destruct (position e <? 0); [done|].
  destruct (OS.ReadFull _ _) as [?|[buf f2]]; [done|].
  destruct (decodeKV buf) as [?|[[? ?] v]]; done.
Qed.

(** Bytes appended to the file do not change what an index entry reads:
    a record, once written, stays as it is. *)
Lemma Get_append_stable (d d' : DiskStore) (key value : string)
    (extra : list byte) :
  keyStore d' !! key = keyStore d !! key ->
  OS.data (file d') = OS.data (file d) ++ extra ->
  OS.closed (file d') = OS.closed (file d) ->
  value_of (Get d key) = Ok value -> value_of (Get d' key) = Ok value.
Proof.
  intros Hks Hdat Hc. unfold Get. rewrite Hks.
  destruct (keyStore d !! key) as [e|]; [|done].
  unfold OS.Seek. rewrite Hc.
  destruct (OS.closed (file d)) eqn:Hcd; [done|].
  destruct (Z.ltb_spec (position e) 0) as [|Hp]; [done|].
  unfold OS.ReadFull. cbn [OS.closed OS.data OS.offset]. rewrite Hdat.
  destruct (totalSize e <=? 0); [done|].
  rewrite drop_app, blen_app.
  set (here := drop (Z.to_nat (position e)) (OS.data (file d))).
  set (more := drop _ extra).
  pose proof (blen_nonneg more).
  destruct (Z.leb_spec (totalSize e) (blen here)) as [Hle|Hgt].
  - destruct (Z.leb_spec (totalSize e) (blen here + blen more)); [|lia].
    rewrite take_app_le by (unfold blen in Hle; lia).
    destruct (decodeKV _) as [?|[[? ?] v]]; done.
  - destruct here; done.
Qed.

Lemma lastValue_snoc (ws : list write) (w : write) (key : string) :
  lastValue (ws ++ [w]) key =
    if decide (w.1.2 = key) then Some w.2 else lastValue ws key.
Proof.
  induction ws as [|a ws IH]; cbn [app lastValue].
  - reflexivity.
  - rewrite IH. destruct (decide (w.1.2 = key)); reflexivity.
Qed.

(** After a sequence of calls of [Set] on a new file, [Get] returns for
    every key the value most recently written for it, and the empty string
    for a key that was not written. *)
Lemma writes_values (ws : list write) :
  blen (log ws) < 2 ^ 32 ->
  exists d,
    writes (mkDiskStore (OS.Open []) ∅) ws = Ok d /\ opened d /\ atEnd d
    /\ OS.data (file d) = log ws
    /\ forall key : string,
         value_of (Get d key) = Ok (default ""%string (lastValue ws key)).
Proof.
  induction ws as [|[[now k] v] ws IH] using rev_ind; intros Hsz.
  - eexists. split; [reflexivity|]. split; [split; [done|cbn; lia]|].
    split; [reflexivity|]. split; [reflexivity|]. intros key. reflexivity.
  - rewrite log_app, blen_app in Hsz.
    change (log [(now, k, v)]) with (record (now, k, v) ++ []) in Hsz.
    rewrite app_nil_r, blen_record in Hsz.
    pose proof (recordSize_pos (now, k, v)).
    destruct IH as (d & Hw & Hop & Hend & Hdat & Hget); [lia|].
    destruct (Set_then_Get_atEnd d now k v Hop Hend)
      as (d' & HS & HG & Hop' & Hend'); [rewrite Hdat; lia|].
    exists d'. rewrite writes_app, Hw. cbn [bind writes]. rewrite HS.
    split; [reflexivity|]. split; [exact Hop'|]. split; [exact Hend'|].
    apply Set_Ok_inv in HS as (_ & Hks & Hdat' & _ & Hc').
    split.
    { rewrite Hdat', Hdat, log_app.
      change (log [(now, k, v)]) with (record (now, k, v) ++ []).
      by rewrite app_nil_r. }
    intros key. rewrite lastValue_snoc. cbn [fst snd].
    destruct (decide (k = key)) as [<-|Hne].
    + unfold value_of. by rewrite HG.
    + apply Get_append_stable
        with (d := d) (extra := record (now, k, v)); [| done | | apply Hget].
      * by rewrite Hks, lookup_insert_ne.
      * destruct Hop as [-> _]. exact Hc'.
Qed.

Lemma lastRecord_range (ws : list write) :
  forall (base p : Z) (key : string),
    lastRecord base ws key = Some p -> base <= p < base + blen (log ws).
Proof.
  induction ws as [|w ws IH]; intros base p key; cbn [lastRecord];
    [discriminate|].
  rewrite log_cons, blen_app, blen_record.
  pose proof (recordSize_pos w). pose proof (blen_nonneg (log ws)).
  destruct (lastRecord (base + recordSize w) ws key) as [q|] eqn:Hq.
  - intros [= <-]. apply IH in Hq. lia.
  - destruct (decide (w.1.2 = key)); [|discriminate]. intros [= <-]. lia.
Qed.

(** The index after a sequence of calls of [Set], from a store whose offset
    is at the end of its file: each key written has the position of its
    most recent record, the other keys keep their entries. *)
Lemma writes_positions (ws : list write) :
  forall (d d' : DiskStore) (key : string),
    opened d -> atEnd d ->
    blen (OS.data (file d)) + blen (log ws) < 2 ^ 32 ->
    writes d ws = Ok d' ->
    position <$> keyStore d' !! key =
      match lastRecord (blen (OS.data (file d))) ws key with
      | Some p => Some p
      | None => position <$> keyStore d !! key
      end.
Proof.
  induction ws as [|[[now k] v] ws IH]; intros d d' key Hop Hend Hsz;
    cbn [writes lastRecord].
  - by intros [= <-].
  - rewrite log_cons, blen_app, blen_record in Hsz.
    pose proof (blen_nonneg (log ws)).
    pose proof (blen_nonneg (OS.data (file d))).
    pose proof (recordSize_pos (now, k, v)).
    rewrite Set_opened by done. cbn [bind]. set (d1 := mkDiskStore _ _).
    intros Hw. rewrite (IH d1 d' key); [| | reflexivity | | exact Hw].
    + subst d1. cbn [file keyStore OS.data fst snd].
      rewrite blen_app, blen_record.
      destruct (lastRecord _ ws key); [reflexivity|].
      destruct (decide (k = key)) as [<-|Hne].
      * rewrite lookup_insert_eq. cbn. unfold atEnd in Hend. rewrite Hend.
        f_equal. apply uint32_small. lia.
      * by rewrite lookup_insert_ne.
    + split; [done|apply blen_nonneg].
    + subst d1. cbn [file OS.data]. rewrite blen_app, blen_record. lia.
Qed.

End Replay.

(** X14. For every sequence of calls of [Set] on a store opened on a new file
    (the log staying below the 4 GiB that 32-bit positions address): the calls
    complete; reopening the file after [Close] succeeds and rebuilds the same
    index; [Get] returns for every key the same result on the reopened store
    as on the original one, namely the value most recently written for the
    key (the empty string for a key not written); and the reopened index holds
    for each key the position of the most recent record of that key. *)
Theorem recovery_equivalence (ws : list write) :
  blen (log ws) < 2 ^ 32 ->
  exists d1 d2,
    bind (NewDiskStore None) (fun d0 => writes d0 ws) = Ok d1
    /\ NewDiskStore (Some (OS.data (file (snd (Close d1))))) = Ok d2
    /\ keyStore d2 = keyStore d1
    /\ (forall key : string, value_of (Get d2 key) = value_of (Get d1 key))
    /\ (forall key : string,
          value_of (Get d1 key) = Ok (default ""%string (lastValue ws key)))
    /\ (forall key : string,
          position <$> keyStore d2 !! key = lastRecord 0 ws key).
Proof.
  intros Hsz.
  destruct (writes_values ws Hsz) as (d1 & Hw & Hop & Hend & Hdat & Hget).
  destruct (createKeyStore_log ws Hsz) as (d1' & Hw' & _ & _ & _ & Hrec).
  rewrite Hw in Hw'. injection Hw' as <-.
  destruct (Close_closed d1) as (_ & _ & Hcd).
  exists d1, (mkDiskStore (OS.Open (log ws)) (keyStore d1)).
  split; [exact Hw|].
  split; [unfold NewDiskStore; rewrite Hcd, Hdat, Hrec; reflexivity|].
  split; [reflexivity|].
  split; [|split; [exact Hget|]].
  - intros key. apply Get_value_ext; [reflexivity| by rewrite Hdat |].
    destruct Hop as [-> _]. reflexivity.
  - intros key. cbn [keyStore].
    rewrite (writes_positions ws (mkDiskStore (OS.Open []) ∅) d1 key);
      [| split; [done|cbn; lia] | reflexivity | exact Hsz | exact Hw].
    cbn [file keyStore OS.data OS.Open]. change (blen []) with 0.
    destruct (lastRecord 0 ws key); [reflexivity|].
    by rewrite lookup_empty.
Qed.

Lemma recovery_equivalence_witness :
  exists d1 d2,
    bind (NewDiskStore None) (fun d0 =>
      writes d0 [(1, "a", "1"); (2, "b", "2"); (3, "a", "3")]%string) = Ok d1
    /\ NewDiskStore (Some (OS.data (file (snd (Close d1))))) = Ok d2
    /\ keyStore d2 = keyStore d1
    /\ (forall key : string, value_of (Get d2 key) = value_of (Get d1 key))
    /\ (forall key : string,
          value_of (Get d1 key)
          = Ok (default ""%string
                  (lastValue [(1, "a", "1"); (2, "b", "2"); (3, "a", "3")]%string
                     key)))
    /\ (forall key : string,
          position <$> keyStore d2 !! key
          = lastRecord 0 [(1, "a", "1"); (2, "b", "2"); (3, "a", "3")]%string key).
Proof.
  apply (recovery_equivalence [(1, "a", "1"); (2, "b", "2"); (3, "a", "3")]%string).
  vm_compute. reflexivity.
Defined.

(* ------------------------------------------------------------------------- *)
(** ** Recovery of a log whose last record is cut short *)

Section Truncation.

Variables (ws : list write) (now : Z) (key value : string).

Let w : write := (now, key, value).

Hypothesis log_fits : blen (log (ws ++ [w])) < 2 ^ 32.

Lemma truncation_sizes :
  blen (log ws) + recordSize w < 2 ^ 32 /\ 0 <= blen (log ws)
  /\ 0 <= len key < 2 ^ 32 /\ 0 <= len value < 2 ^ 32.
Proof.
  pose proof log_fits as H. rewrite log_app, blen_app in H.
  change (log [w]) with (record w ++ []) in H.
  rewrite app_nil_r, blen_record in H.
  pose proof (blen_nonneg (log ws)). pose proof (len_nonneg key).
  pose proof (len_nonneg value). subst w. rewrite recordSize_eq in *. lia.
Qed.

(** The scan of the whole records before the cut. *)
Lemma scan_to_last_record (tail : list byte) :
  exists d,
    writes (mkDiskStore (OS.Open []) ∅) ws = Ok d /\ opened d /\ atEnd d
    /\ OS.data (file d) = log ws
    /\ createKeyStore (log ws ++ tail) ∅
       = scanLoop (OS.mkFile (log ws ++ tail) (blen (log ws)) false)
           (keyStore d).
Proof.
  destruct truncation_sizes as (Hsz & Hl & _).
  pose proof (recordSize_pos w).
  destruct (writes_replayed ws (mkDiskStore (OS.Open []) ∅) tail)
    as (d & Hw & Hop & Hend & Hdat & Hscan);
    [split; [done|cbn; lia] | reflexivity | lia |].
  exists d. cbn [file keyStore OS.data OS.Open app] in Hdat, Hscan.
  change (blen []) with 0 in Hscan. rewrite Hdat in Hscan.
  do 4 (split; [done|]). exact Hscan.
Qed.

(** Cut inside the header: the process ends at the header read. *)
Lemma createKeyStore_truncated_header (n : nat) :
  (0 < n < 12)%nat ->
  createKeyStore (log ws ++ take n (record w)) ∅ = Fatal CouldNotReadHeader.
Proof.
  intros Hn. destruct (scan_to_last_record (take n (record w)))
    as (d & _ & _ & _ & _ & ->).
  pose proof (blen_record w) as Hb. pose proof (recordSize_pos w).
  rewrite scanLoop_turn.
  destruct (scanRecord_end
              (OS.mkFile (log ws ++ take n (record w)) (blen (log ws)) false)
              (keyStore d) eq_refl) as [_ ->]; [done|].
  unfold available. cbn [OS.offset OS.data].
  assert (Z.to_nat (blen (log ws)) = length (log ws)) as ->
    by (unfold blen; lia).
  rewrite drop_app_length. unfold blen in *. rewrite length_take. lia.
Qed.

(** Cut inside the key: the process ends at the key read. *)
Lemma createKeyStore_truncated_key (n : nat) :
  (12 <= n)%nat -> Z.of_nat n < 12 + len key ->
  createKeyStore (log ws ++ take n (record w)) ∅ = Fatal CouldNotReadKey.
Proof.
  intros Hn Hk. destruct (scan_to_last_record (take n (record w)))
    as (d & _ & _ & _ & _ & ->).
  destruct truncation_sizes as (_ & Hl & Hkey & Hval).
  set (hdr := encodeHeader (uint32 now) (len key) (len value)).
  set (kb := list_byte_of_string key). set (vb := list_byte_of_string value).
  assert (take n (record w) = hdr ++ take (n - 12) (kb ++ vb)) as ->.
  { change (record w) with (hdr ++ kb ++ vb).
    rewrite take_app_ge by (change (length hdr) with 12%nat; lia).
    reflexivity. }
  set (cut := take (n - 12) (kb ++ vb)).
  assert (blen cut < len key) as Hcut.
  { subst cut. unfold blen. rewrite length_take. lia. }
  rewrite scanLoop_turn. unfold scanRecord.
  change headerSize with (blen hdr).
  rewrite (ReadFull_at _ (log ws) hdr cut (blen (log ws)));
    [| reflexivity | reflexivity].
  rewrite <- (app_nil_r hdr) at 1. unfold hdr at 1.
  rewrite decodeHeader_encodeHeader.
  rewrite (uint32_small (len key)) by lia.
  unfold OS.ReadFull. cbn [OS.closed OS.offset OS.data].
  pose proof (blen_nonneg cut).
  destruct (Z.leb_spec (len key) 0); [lia|].
  assert (Z.to_nat (blen (log ws) + blen hdr) = length (log ws ++ hdr)) as ->
    by (rewrite length_app; unfold blen; lia).
  rewrite app_assoc, drop_app_length.
  destruct (Z.leb_spec (len key) (blen cut)); [lia|].
  destruct cut; reflexivity.
Qed.

(** Cut inside the value, or with the value missing altogether: the scan
    does not notice, and recovery returns the index of the whole log. *)
Lemma createKeyStore_truncated_value (m : nat) :
  (m < String.length value)%nat ->
  exists d,
    writes (mkDiskStore (OS.Open []) ∅) (ws ++ [w]) = Ok d
    /\ createKeyStore
         (log ws ++ take (12 + String.length key + m) (record w)) ∅
       = Ok (keyStore d).
Proof.
  intros Hm.
  destruct (scan_to_last_record
              (take (12 + String.length key + m) (record w)))
    as (d & Hw & Hop & Hend & Hdat & ->).
  destruct truncation_sizes as (Hsz & Hl & Hkey & Hval).
  set (hdr := encodeHeader (uint32 now) (len key) (len value)).
  set (kb := list_byte_of_string key). set (vb := list_byte_of_string value).
  assert (take (12 + String.length key + m) (record w)
          = hdr ++ kb ++ take m vb) as ->.
  { change (record w) with (hdr ++ kb ++ vb).
    rewrite <- Nat.add_assoc.
    rewrite (take_app_add' hdr) by reflexivity.
    rewrite (take_app_add' kb)
      by (subst kb; by rewrite length_list_byte_of_string).
    reflexivity. }
  eexists. rewrite writes_app, Hw. unfold w. cbn [bind writes].
  rewrite Set_opened by done. cbn [bind]. split; [reflexivity|].
  cbn [keyStore].
  rewrite scanLoop_turn. subst hdr kb.
  rewrite scanRecord_at_header by lia.
  rewrite scanLoop_end.
  - unfold atEnd in Hend. rewrite Hend, Hdat, uint32_idemp. reflexivity.
  - reflexivity.
  - unfold available. cbn [OS.offset OS.data].
    rewrite drop_ge; [reflexivity|].
    rewrite !length_app, length_take, length_encodeHeader.
    rewrite length_list_byte_of_string.
    subst vb. rewrite length_list_byte_of_string.
    unfold blen, len in *. lia.
Qed.

End Truncation.

(** C5. Reopening [truncatedLog], a log cut off inside the value of its last
    record, does not fail: recovery returns normally with an index that holds
    an entry of the full size 18 for the cut record, of which the file has
    only 16 bytes, and the process ends only later, in the [Get] that reads
    through that entry. *)
Theorem recovery_accepts_truncated_value :
  blen truncatedLog = 30
  /\ bind (NewDiskStore (Some truncatedLog)) (fun d =>
       Ok (keyStore d !! "a"%string, keyStore d !! "b"%string))
     = Ok (Some (mkKeyEntry 1 0 14), Some (mkKeyEntry 2 14 18))
  /\ bind (NewDiskStore (Some truncatedLog)) (fun d => value_of (Get d "b"))
     = Fatal ErrorReadingFile.
Proof. repeat split; vm_compute; reflexivity. Qed.

(* ------------------------------------------------------------------------- *)
(** ** Further properties of the store *)

Section Runs.

Lemma step_data (d d' : DiskStore) (o : op) :
  step d o = Ok d' ->
  OS.data (file d') = OS.data (file d) ++ log (setsOf [o]).
Proof.
  destruct o as [k|now k v]; cbn [step setsOf].
  - unfold state_of. destruct (Get d k) as [[v d1]|e] eqn:HG; [|discriminate].
    intros [= <-]. apply Get_Ok_inv in HG as (_ & -> & _).
    cbn. by rewrite app_nil_r.
  - intros HS. apply Set_Ok_inv in HS as (_ & _ & -> & _).
    change (log [(now, k, v)]) with (record (now, k, v) ++ []).
    by rewrite app_nil_r.
Qed.

Lemma setsOf_cons (o : op) (os : list op) :
  setsOf (o :: os) = setsOf [o] ++ setsOf os.
Proof. destruct o; reflexivity. Qed.

Lemma run_data (os : list op) (d d' : DiskStore) :
  run d os = Ok d' ->
  OS.data (file d') = OS.data (file d) ++ log (setsOf os).
Proof.
  revert d. induction os as [|o os IH]; intros d; cbn [run].
  - intros [= <-]. cbn. by rewrite app_nil_r.
  - destruct (step d o) as [d1|e] eqn:Hstep; [|discriminate]. cbn [bind].
    intros Hrun. rewrite (IH _ Hrun), (step_data _ _ _ Hstep).
    by rewrite (setsOf_cons o os), log_app, <- app_assoc.
Qed.

Lemma Get_Ok_offset (d d' : DiskStore) (key value : string) (e : KeyEntry) :
  keyStore d !! key = Some e -> Get d key = Ok (value, d') ->
  OS.offset (file d') = position e + Z.max 0 (totalSize e).
Proof.
  intros He. unfold Get. rewrite He.
  destruct (OS.Seek _ _ _) as [?|[p f1]] eqn:Hs; [discriminate|].
  apply Seek_inr in Hs as (_ & _ & _ & Ho1 & _ & ->).
  destruct (OS.ReadFull _ _) as [?|[buf f2]] eqn:Hr; [discriminate|].
  apply ReadFull_inr in Hr as (_ & _ & [(Hn & -> & _)|(Hn & _ & Ho2 & _)]).
  - destruct (decodeKV buf) as [?|[[? ?] v]]; [discriminate|].
    intros [= _ <-]. cbn [file]. lia.
  - destruct (decodeKV buf) as [?|[[? ?] v]]; [discriminate|].
    intros [= _ <-]. cbn [file]. lia.
Qed.

Lemma step_inBounds (d d' : DiskStore) (o : op) :
  inBounds d -> step d o = Ok d' -> blen (OS.data (file d')) < 2 ^ 32 ->
  inBounds d'.
Proof.
  intros (Hc & Hoff & Hent) Hstep Hsz. destruct o as [k|now k v]; cbn [step] in Hstep.
  - unfold state_of in Hstep.
    destruct (Get d k) as [[v d1]|e] eqn:HG; [|discriminate].
    injection Hstep as <-.
    pose proof (Get_Ok_inv _ _ _ _ HG) as (Hks & Hdat & Hcl).
    split; [congruence|]. split.
    + rewrite Hdat. destruct (keyStore d !! k) as [e|] eqn:He.
      * rewrite (Get_Ok_offset _ _ _ _ _ He HG).
        destruct (Hent k e He) as (? & ? & ?). lia.
      * rewrite (Get_absent _ _ He) in HG. injection HG as _ <-. exact Hoff.
    + rewrite Hks, Hdat. exact Hent.
  - pose proof (Set_Ok_inv _ _ _ _ _ Hstep) as (_ & Hks & Hdat & Ho & Hc').
    pose proof (recordSize_pos (now, k, v)) as Hr.
    rewrite Hdat, blen_app, blen_record in Hsz.
    split; [exact Hc'|]. split; [rewrite Ho; pose proof (blen_nonneg (OS.data (file d'))); lia|].
    intros key e. rewrite Hks, Hdat, blen_app, blen_record.
    destruct (decide (k = key)) as [<-|Hne].
    + rewrite lookup_insert_eq. intros [= <-]. cbn [position totalSize].
      change (headerSize + len k + len v) with (recordSize (now, k, v)).
      rewrite !uint32_small by lia. lia.
    + rewrite lookup_insert_ne by done. intros He.
      destruct (Hent key e He) as (? & ? & ?). lia.
Qed.

Lemma run_inBounds (os : list op) (d d' : DiskStore) :
  inBounds d -> run d os = Ok d' -> blen (OS.data (file d')) < 2 ^ 32 ->
  inBounds d'.
Proof.
  revert d. induction os as [|o os IH]; intros d Hin; cbn [run].
  - by intros [= <-].
  - destruct (step d o) as [d1|e] eqn:Hstep; [|discriminate]. cbn [bind].
    intros Hrun Hsz. apply (IH d1); [|exact Hrun|exact Hsz].
    apply (step_inBounds d d1 o Hin Hstep).
    rewrite (run_data _ _ _ Hrun), blen_app in Hsz.
    pose proof (blen_nonneg (log (setsOf os))). lia.
Qed.

End Runs.

(** X1. Opening a path where there is no file, or where the file is empty,
    succeeds with an empty index and an empty file, and [Get] then returns the
    empty string for every key and leaves the store as it is. *)
Theorem open_without_log (disk : option (list byte)) :
  disk = None \/ disk = Some [] ->
  exists d,
    NewDiskStore disk = Ok d /\ keyStore d = ∅ /\ OS.data (file d) = []
    /\ opened d /\ atEnd d
    /\ forall key : string, Get d key = Ok (""%string, d).
Proof.
  intros Hdisk. exists (mkDiskStore (OS.Open []) ∅).
  split.
  - destruct Hdisk as [-> | ->]; [reflexivity|].
    unfold NewDiskStore, createKeyStore.
    rewrite scanLoop_end; [reflexivity | reflexivity | reflexivity].
  - split; [reflexivity|]. split; [reflexivity|].
    split; [split; [reflexivity | cbn; lia]|]. split; [reflexivity|].
    intros key. apply Get_absent. apply lookup_empty.
Qed.

Lemma open_without_log_witness :
  exists d,
    NewDiskStore (Some []) = Ok d /\ keyStore d = ∅ /\ OS.data (file d) = []
    /\ opened d /\ atEnd d
    /\ forall key : string, Get d key = Ok (""%string, d).
Proof. apply (open_without_log (Some [])). right. reflexivity. Defined.

(** X2. A [Set] that returns has appended exactly one record to the file and
    changed nothing before it; it leaves the handle open with its offset at the
    new end of the file; the index entry of the key takes the truncated clock
    reading, the offset the handle had before the call and the record's size;
    and the entries of all other keys are as they were. *)
Theorem Set_appends_one_record (d d' : DiskStore) (now : Z) (key value : string) :
  Set_ d now key value = Ok d' ->
  OS.data (file d') = OS.data (file d) ++ record (now, key, value)
  /\ blen (record (now, key, value)) = 12 + len key + len value
  /\ OS.closed (file d') = false /\ atEnd d'
  /\ keyStore d' !! key =
       Some (mkKeyEntry (uint32 now) (uint32 (OS.offset (file d)))
               (uint32 (12 + len key + len value)))
  /\ forall other : string,
       other <> key -> keyStore d' !! other = keyStore d !! other.
Proof.
  intros HS. apply Set_Ok_inv in HS as (_ & Hks & Hdat & Ho & Hc).
  split; [exact Hdat|]. split; [by rewrite blen_record|].
  split; [exact Hc|]. split; [exact Ho|]. rewrite Hks. split.
  - by rewrite lookup_insert_eq.
  - intros other Hne. by rewrite lookup_insert_ne.
Qed.

Lemma Set_appends_one_record_witness :
  exists d',
    Set_ written 2 "b" "22" = Ok d'
    /\ OS.data (file d') = OS.data (file written) ++ record (2, "b", "22")%string
    /\ blen (record (2, "b", "22")%string) = 12 + len "b" + len "22"
    /\ OS.closed (file d') = false /\ atEnd d'
    /\ keyStore d' !! "b"%string =
         Some (mkKeyEntry (uint32 2) (uint32 (OS.offset (file written)))
                 (uint32 (12 + len "b" + len "22")))
    /\ forall other : string,
         other <> "b"%string -> keyStore d' !! other = keyStore written !! other.
Proof.
  eexists. split; [vm_compute; reflexivity|].
  apply (Set_appends_one_record written _ 2 "b" "22"). vm_compute. reflexivity.
Defined.

(** X3. After every sequence of [Get] and [Set] calls that the store
    completes, the file is what it was before the sequence followed by the
    records of the [Set] calls, in the order of the calls: nothing written is
    changed or removed, and [Get] writes nothing. *)
Theorem file_is_log_of_sets (d d' : DiskStore) (os : list op) :
  run d os = Ok d' ->
  OS.data (file d') = OS.data (file d) ++ log (setsOf os).
Proof. apply run_data. Qed.

Lemma file_is_log_of_sets_witness :
  exists d',
    run written [OpGet "a"; OpSet 2 "b" "2"; OpGet "zz"; OpSet 3 "a" "3"] = Ok d'
    /\ OS.data (file d') =
         OS.data (file written)
           ++ log (setsOf [OpGet "a"; OpSet 2 "b" "2"; OpGet "zz"; OpSet 3 "a" "3"]).
Proof.
  eexists. split; [vm_compute; reflexivity|].
  apply (file_is_log_of_sets written _
           [OpGet "a"; OpSet 2 "b" "2"; OpGet "zz"; OpSet 3 "a" "3"]).
  vm_compute. reflexivity.
Defined.

(** X4. On an open store whose offset is at the end of a file that stays
    below 4 GiB, writing each pair with [Set] and reading its key back at once
    with [Get], pair after pair, returns exactly the values written, appends
    the records of the pairs and leaves the offset at the end of the file. *)
Theorem set_get_alternation (ws : list write) :
  forall d : DiskStore,
    opened d -> atEnd d ->
    blen (OS.data (file d)) + blen (log ws) < 2 ^ 32 ->
    exists d',
      setGetAll d ws = Ok (map snd ws, d')
      /\ OS.data (file d') = OS.data (file d) ++ log ws
      /\ opened d' /\ atEnd d'.
Proof.
  induction ws as [|[[now key] value] ws IH]; intros d Hop Hend Hsz.
  - exists d. cbn [setGetAll map log concat]. rewrite app_nil_r. done.
  - rewrite log_cons, blen_app, blen_record in Hsz.
    pose proof (blen_nonneg (log ws)).
    destruct (Set_then_Get_atEnd d now key value Hop Hend)
      as (d1 & HS & HG & Hop1 & Hend1); [lia|].
    pose proof (Set_Ok_inv _ _ _ _ _ HS) as (_ & _ & Hdat1 & _).
    destruct (IH d1 Hop1 Hend1) as (d' & Hall & Hdat & Hop' & Hend').
    { rewrite Hdat1, blen_app, blen_record. lia. }
    exists d'. cbn [setGetAll]. rewrite HS. cbn [bind]. rewrite HG.
    cbn [bind fst snd]. rewrite Hall. cbn [bind fst snd map].
    split; [reflexivity|]. split; [|done].
    by rewrite Hdat, Hdat1, log_cons, <- app_assoc.
Qed.

Lemma set_get_alternation_witness :
  exists d',
    setGetAll written [(2, "b", "2"); (3, "a", "33"); (4, "c", "")]%string
      = Ok (map snd [(2, "b", "2"); (3, "a", "33"); (4, "c", "")]%string, d')
    /\ OS.data (file d') =
         OS.data (file written)
           ++ log [(2, "b", "2"); (3, "a", "33"); (4, "c", "")]%string
    /\ opened d' /\ atEnd d'.
Proof.
  apply (set_get_alternation
           [(2, "b", "2"); (3, "a", "33"); (4, "c", "")]%string written).
  - split; [reflexivity | vm_compute; discriminate].
  - reflexivity.
  - vm_compute. reflexivity.
Defined.

(** X5. A [Set] of one key does not change what [Get] returns for another
    key: if [Get(k1)] returned a value before [Set(k2, v)], with [k1] and [k2]
    different, it returns the same value after it. *)
Theorem Set_keeps_other_reads (d d' : DiskStore) (now : Z)
    (k1 k2 v1 v2 : string) :
  k1 <> k2 ->
  value_of (Get d k1) = Ok v1 ->
  Set_ d now k2 v2 = Ok d' ->
  value_of (Get d' k1) = Ok v1.
Proof.
  intros Hne HG HS.
  apply Set_Ok_inv in HS as (Hc & Hks & Hdat & _ & Hc').
  apply Get_append_stable with (d := d) (extra := record (now, k2, v2));
    [| exact Hdat | congruence | exact HG].
  rewrite Hks. by rewrite lookup_insert_ne.
Qed.

Lemma Set_keeps_other_reads_witness :
  exists d',
    Set_ written 2 "b" "2" = Ok d' /\ value_of (Get d' "a") = Ok "1"%string.
Proof.
  eexists. split; [vm_compute; reflexivity|].
  apply (Set_keeps_other_reads written _ 2 "a" "b" "1" "2").
  - discriminate.
  - vm_compute. reflexivity.
  - vm_compute. reflexivity.
Defined.

(** X6. A [Get] that returns does not change what any later [Get] returns:
    it leaves the index and the contents of the file as they were, and the
    offset it moves plays no part in a read. *)
Theorem Get_does_not_disturb_reads (d d1 : DiskStore) (k1 v1 : string) :
  Get d k1 = Ok (v1, d1) ->
  keyStore d1 = keyStore d /\ OS.data (file d1) = OS.data (file d)
  /\ forall k2 : string, value_of (Get d1 k2) = value_of (Get d k2).
Proof.
  intros HG. apply Get_Ok_inv in HG as (Hks & Hdat & Hc).
  split; [exact Hks|]. split; [exact Hdat|].
  intros k2. by apply Get_value_ext.
Qed.

Lemma Get_does_not_disturb_reads_witness :
  exists d1,
    Get written "a" = Ok ("1"%string, d1)
    /\ keyStore d1 = keyStore written
    /\ OS.data (file d1) = OS.data (file written)
    /\ forall k2 : string, value_of (Get d1 k2) = value_of (Get written k2).
Proof.
  eexists. split; [vm_compute; reflexivity|].
  apply (Get_does_not_disturb_reads written _ "a" "1").
  vm_compute. reflexivity.
Defined.

(** X7. [Close] on an open store returns true and closes the handle; a second
    [Close] returns false and changes nothing; neither touches the index or
    the contents of the file. *)
Theorem Close_then_Close (d : DiskStore) :
  OS.closed (file d) = false ->
  fst (Close d) = true
  /\ OS.closed (file (snd (Close d))) = true
  /\ keyStore (snd (Close d)) = keyStore d
  /\ OS.data (file (snd (Close d))) = OS.data (file d)
  /\ Close (snd (Close d)) = (false, snd (Close d)).
Proof.
  intros Hc. unfold Close, OS.Close. rewrite Hc. cbn. done.
Qed.

Lemma Close_then_Close_witness :
  fst (Close written) = true
  /\ OS.closed (file (snd (Close written))) = true
  /\ keyStore (snd (Close written)) = keyStore written
  /\ OS.data (file (snd (Close written))) = OS.data (file written)
  /\ Close (snd (Close written)) = (false, snd (Close written)).
Proof. apply (Close_then_Close written). reflexivity. Defined.

(** X8. Recovery of a log below 4 GiB whose last record is cut off inside its
    header or inside its key ends the process: with "Could not read header"
    when fewer than 12 bytes of the record are left, with "Could not read key"
    when the header is whole and the key is not. *)
Theorem recovery_rejects_cut_header_or_key
    (ws : list write) (now : Z) (key value : string) (n : nat) :
  blen (log (ws ++ [(now, key, value)])) < 2 ^ 32 ->
  (0 < n)%nat -> Z.of_nat n < 12 + len key ->
  createKeyStore (log ws ++ take n (record (now, key, value))) ∅
  = Fatal (if (n <? 12)%nat then CouldNotReadHeader else CouldNotReadKey).
Proof.
  intros Hsz Hn Hk. destruct (Nat.ltb_spec n 12) as [Hlt|Hge].
  - apply createKeyStore_truncated_header; [exact Hsz | lia].
  - apply createKeyStore_truncated_key; [exact Hsz | lia | exact Hk].
Qed.

Lemma recovery_rejects_cut_header_or_key_witness :
  createKeyStore
    (log [(1, "a", "1")%string] ++ take 5 (record (2, "key", "value")%string)) ∅
  = Fatal CouldNotReadHeader
  /\ createKeyStore
       (log [(1, "a", "1")%string] ++ take 14 (record (2, "key", "value")%string)) ∅
     = Fatal CouldNotReadKey.
Proof.
  split.
  - apply (recovery_rejects_cut_header_or_key [(1, "a", "1")%string] 2
             "key" "value" 5); [vm_compute; reflexivity | lia | vm_compute; reflexivity].
  - apply (recovery_rejects_cut_header_or_key [(1, "a", "1")%string] 2
             "key" "value" 14); [vm_compute; reflexivity | lia | vm_compute; reflexivity].
Defined.

(** X9. Recovery of a log below 4 GiB whose last record has its header and
    key whole and its value cut short, or missing, returns normally, with the
    very index that recovery of the complete log returns: the scan skips the
    value by the size in the header and never looks for its bytes. *)
Theorem recovery_accepts_cut_value
    (ws : list write) (now : Z) (key value : string) (m : nat) :
  blen (log (ws ++ [(now, key, value)])) < 2 ^ 32 ->
  (m < String.length value)%nat ->
  exists ks,
    createKeyStore
      (log ws ++ take (12 + String.length key + m) (record (now, key, value))) ∅
    = Ok ks
    /\ createKeyStore (log (ws ++ [(now, key, value)])) ∅ = Ok ks.
Proof.
  intros Hsz Hm.
  destruct (createKeyStore_truncated_value ws now key value Hsz m Hm)
    as (d & Hw & Hcut).
  cbv zeta in Hw, Hcut.
  destruct (createKeyStore_log _ Hsz) as (d0 & Hw0 & _ & _ & _ & Hfull).
  pose proof (eq_trans (eq_sym Hw0) Hw) as [= ->].
  exists (keyStore d). split; [exact Hcut | exact Hfull].
Qed.

Lemma recovery_accepts_cut_value_witness :
  exists ks,
    createKeyStore
      (log [(1, "a", "1")%string]
         ++ take (12 + String.length "key" + 2) (record (2, "key", "value")%string)) ∅
    = Ok ks
    /\ createKeyStore
         (log ([(1, "a", "1")%string] ++ [(2, "key", "value")%string])) ∅
       = Ok ks.
Proof.
  apply (recovery_accepts_cut_value [(1, "a", "1")%string] 2 "key" "value" 2).
  - vm_compute. reflexivity.
  - cbn. lia.
Defined.

Section Bounds.

Lemma inBounds_new : inBounds (mkDiskStore (OS.Open []) ∅).
Proof.
  split; [reflexivity|]. split; [unfold blen; simpl; lia|].
  intros key e. cbn [keyStore]. rewrite lookup_empty. discriminate.
Qed.

(** With every entry inside the file, the seek and the read of [Get] find
    what they look for. *)
Lemma inBounds_Get (d : DiskStore) (key : string) :
  inBounds d ->
  Get d key <> Fatal ErrorSeekingToValue /\ Get d key <> Fatal ErrorReadingFile.
Proof.
  intros (Hc & _ & Hent). unfold Get.
  destruct (keyStore d !! key) as [e|] eqn:He; [|split; discriminate].
  destruct (Hent key e He) as (Hp & Hs & Hin).
  unfold OS.Seek. rewrite Hc.
  destruct (Z.ltb_spec (position e) 0); [lia|].
  unfold OS.ReadFull. cbn [OS.closed OS.data OS.offset].
  destruct (totalSize e <=? 0).
  - destruct (decodeKV []) as [?|[[? ?] ?]]; split; discriminate.
  - rewrite blen_drop by done.
    destruct (Z.leb_spec (totalSize e)
                (Z.max 0 (blen (OS.data (file d)) - position e))); [|lia].
    destruct (decodeKV _) as [?|[[? ?] ?]]; split; discriminate.
Qed.

(** For a key whose index entry reaches past the end of the file, [Get] ends
    the process at the read. *)
Lemma Get_past_end (d : DiskStore) (key : string) (e : KeyEntry) :
  keyStore d !! key = Some e -> OS.closed (file d) = false ->
  0 <= position e -> 0 < totalSize e ->
  blen (OS.data (file d)) < position e + totalSize e ->
  Get d key = Fatal ErrorReadingFile.
Proof.
  intros He Hc Hp Hs Hout. unfold Get. rewrite He.
  unfold OS.Seek. rewrite Hc.
  destruct (Z.ltb_spec (position e) 0); [lia|].
  unfold OS.ReadFull. cbn [OS.closed OS.data OS.offset].
  destruct (Z.leb_spec (totalSize e) 0); [lia|].
  rewrite blen_drop by done.
  destruct (Z.leb_spec (totalSize e)
              (Z.max 0 (blen (OS.data (file d)) - position e))); [lia|].
  destruct (drop _ _); reflexivity.
Qed.

End Bounds.

(** X10. In every store reached from a new file by a sequence of [Get] and
    [Set] calls, with the file below 4 GiB, every index entry lies inside the
    file and so does the handle's offset; a [Get] on such a store never ends
    the process at its seek or at its read. *)
Theorem index_entries_stay_in_file (os : list op) (d' : DiskStore) :
  bind (NewDiskStore None) (fun d => run d os) = Ok d' ->
  blen (OS.data (file d')) < 2 ^ 32 ->
  inBounds d'
  /\ forall key : string,
       Get d' key <> Fatal ErrorSeekingToValue
       /\ Get d' key <> Fatal ErrorReadingFile.
Proof.
  cbn [NewDiskStore bind default]. intros Hrun Hsz.
  assert (inBounds d') as Hin
    by exact (run_inBounds os _ d' inBounds_new Hrun Hsz).
  split; [exact Hin|]. intros key. by apply inBounds_Get.
Qed.

Lemma index_entries_stay_in_file_witness :
  exists d',
    bind (NewDiskStore None) (fun d =>
      run d [OpSet 1 "a" "1"; OpSet 2 "b" "2"; OpGet "a"; OpSet 3 "c" "3";
             OpGet "c"]) = Ok d'
    /\ inBounds d'
    /\ forall key : string,
         Get d' key <> Fatal ErrorSeekingToValue
         /\ Get d' key <> Fatal ErrorReadingFile.
Proof.
  eexists. split; [vm_compute; reflexivity|].
  apply (index_entries_stay_in_file
           [OpSet 1 "a" "1"; OpSet 2 "b" "2"; OpGet "a"; OpSet 3 "c" "3";
            OpGet "c"]);
    vm_compute; reflexivity.
Defined.

(** X11. Whatever sequence of [Get] and [Set] calls a store opened on a new
    file has completed (the file staying below 4 GiB), reopening the file
    after [Close] succeeds, and on the reopened store [Get] returns for every
    key the value of the most recent [Set] of that key, and the empty string
    for a key never set. *)
Theorem reopen_after_any_run (os : list op) (d' : DiskStore) :
  bind (NewDiskStore None) (fun d => run d os) = Ok d' ->
  blen (OS.data (file d')) < 2 ^ 32 ->
  exists d2,
    NewDiskStore (Some (OS.data (file (snd (Close d'))))) = Ok d2
    /\ forall key : string,
         value_of (Get d2 key)
         = Ok (default ""%string (lastValue (setsOf os) key)).
Proof.
  intros Hrun Hsz. cbn [NewDiskStore bind default] in Hrun.
  pose proof (run_data _ _ _ Hrun) as Hdat. cbn [file OS.data OS.Open app] in Hdat.
  rewrite Hdat in Hsz.
  destruct (writes_values (setsOf os) Hsz) as (dw & Hw & Hop & _ & Hdw & Hget).
  destruct (createKeyStore_log (setsOf os) Hsz) as (dw' & Hw' & _ & _ & _ & Hrec).
  pose proof (eq_trans (eq_sym Hw') Hw) as [= ->].
  destruct (Close_closed d') as (_ & _ & ->). rewrite Hdat.
  exists (mkDiskStore (OS.Open (log (setsOf os))) (keyStore dw)).
  split; [unfold NewDiskStore; rewrite Hrec; reflexivity|].
  intros key. rewrite <- Hget.
  apply Get_value_ext; [reflexivity | by rewrite Hdw |].
  destruct Hop as [-> _]. reflexivity.
Qed.

Lemma reopen_after_any_run_witness :
  exists d' d2,
    bind (NewDiskStore None) (fun d =>
      run d [OpSet 1 "a" "1"; OpSet 2 "b" "2"; OpGet "a"; OpSet 3 "c" "3";
             OpGet "c"]) = Ok d'
    /\ value_of (Get d' "c") = Ok "2"%string
    /\ NewDiskStore (Some (OS.data (file (snd (Close d'))))) = Ok d2
    /\ forall key : string,
         value_of (Get d2 key)
         = Ok (default ""%string
                 (lastValue
                    (setsOf [OpSet 1 "a" "1"; OpSet 2 "b" "2"; OpGet "a";
                             OpSet 3 "c" "3"; OpGet "c"]) key)).
Proof.
  eexists.
  assert (forall (P : DiskStore -> Prop) (Q R : Prop),
            Q -> R -> (exists d2, P d2) -> exists d2, Q /\ R /\ P d2) as Hpack
    by (intros P Q R HQ HR [d2 HP]; exists d2; auto).
  apply Hpack; [vm_compute; reflexivity | vm_compute; reflexivity |].
  apply (reopen_after_any_run
           [OpSet 1 "a" "1"; OpSet 2 "b" "2"; OpGet "a"; OpSet 3 "c" "3";
            OpGet "c"]);
    vm_compute; reflexivity.
Defined.

(** X12. On an open store, [Get] of a key whose index entry reaches past the
    end of the file, as after a cut in the last value or a file shortened from
    outside, ends the process with "Error reading file" and returns no
    value. *)
Theorem Get_entry_past_end_of_file (d : DiskStore) (key : string) (e : KeyEntry) :
  keyStore d !! key = Some e -> OS.closed (file d) = false ->
  0 <= position e -> 0 < totalSize e ->
  blen (OS.data (file d)) < position e + totalSize e ->
  Get d key = Fatal ErrorReadingFile.
Proof. apply Get_past_end. Qed.

Lemma Get_entry_past_end_of_file_witness :
  Get (mkDiskStore (OS.Open truncatedLog)
         (<["b"%string := mkKeyEntry 2 14 18]> ∅)) "b"
  = Fatal ErrorReadingFile.
Proof.
  apply (Get_entry_past_end_of_file _ "b" (mkKeyEntry 2 14 18));
    vm_compute; try reflexivity; discriminate.
Defined.

Section ValueBlind.

(** Two calls of [Set] with the same clock reading and key and with values of
    the same length. *)
Let alike (w w' : write) : Prop := w.1 = w'.1 /\ len w.2 = len w'.2.

Lemma alike_recordSize (w w' : write) : alike w w' -> recordSize w = recordSize w'.
Proof.
  destruct w as [[now k] v], w' as [[now' k'] v']. intros [[= -> ->] Hl].
  cbn in Hl. rewrite !recordSize_eq. lia.
Qed.

Lemma alike_blen_log (ws ws' : list write) :
  Forall2 alike ws ws' -> blen (log ws) = blen (log ws').
Proof.
  induction 1 as [|w w' ws ws' Hw _ IH]; [reflexivity|].
  rewrite !log_cons, !blen_app, !blen_record, IH.
  by rewrite (alike_recordSize w w').
Qed.

Lemma alike_writes (ws ws' : list write) :
  Forall2 alike ws ws' ->
  forall d d' e e' : DiskStore,
    opened d -> opened d' -> keyStore d = keyStore d' ->
    blen (OS.data (file d)) = blen (OS.data (file d')) ->
    OS.offset (file d) = OS.offset (file d') ->
    writes d ws = Ok e -> writes d' ws' = Ok e' -> keyStore e = keyStore e'.
Proof.
  induction 1 as [|w w' ws ws' Hw _ IH]; intros d d' e e' Hop Hop' Hks Hlen Hoff.
  - cbn. intros [= <-] [= <-]. exact Hks.
  - pose proof (alike_recordSize w w' Hw) as Hrs.
    destruct w as [[now k] v], w' as [[now' k'] v'].
    destruct Hw as [[= <- <-] _]. cbn [writes].
    rewrite !Set_opened by done. cbn [bind].
    apply IH.
    + split; [reflexivity | apply blen_nonneg].
    + split; [reflexivity | apply blen_nonneg].
    + cbn [keyStore]. by rewrite Hks, Hoff, Hrs.
    + cbn [file OS.data]. rewrite !blen_app, !blen_record. lia.
    + cbn [file OS.offset]. rewrite !blen_app, !blen_record. lia.
Qed.

(** Recovery of two logs that differ only in the bytes of their values. *)
Lemma alike_createKeyStore (ws ws' : list write) :
  Forall2 alike ws ws' -> blen (log ws) < 2 ^ 32 ->
  createKeyStore (log ws) ∅ = createKeyStore (log ws') ∅.
Proof.
  intros Hal Hsz.
  destruct (createKeyStore_log ws Hsz) as (d & Hw & _ & _ & _ & ->).
  rewrite (alike_blen_log ws ws' Hal) in Hsz.
  destruct (createKeyStore_log ws' Hsz) as (d' & Hw' & _ & _ & _ & ->).
  f_equal.
  apply (alike_writes ws ws' Hal (mkDiskStore (OS.Open []) ∅)
           (mkDiskStore (OS.Open []) ∅) d d'); try done.
  all: split; [reflexivity | cbn; lia].
Qed.

End ValueBlind.

(** X13. Recovery does not look at the values: two logs below 4 GiB written
    by [Set] calls with the same clock readings and keys, record for record,
    and with values of equal lengths give the same index, whatever the bytes of
    the values are. *)
Theorem recovery_ignores_value_bytes (ws ws' : list write) :
  Forall2 (fun w w' : write => w.1 = w'.1 /\ len w.2 = len w'.2) ws ws' ->
  blen (log ws) < 2 ^ 32 ->
  createKeyStore (log ws) ∅ = createKeyStore (log ws') ∅.
Proof. apply alike_createKeyStore. Qed.

Lemma recovery_ignores_value_bytes_witness :
  createKeyStore (log [(1, "a", "one"); (2, "b", "")]%string) ∅
  = createKeyStore (log [(1, "a", "two"); (2, "b", "")]%string) ∅.
Proof.
  apply (recovery_ignores_value_bytes
           [(1, "a", "one"); (2, "b", "")]%string
           [(1, "a", "two"); (2, "b", "")]%string).
  - repeat constructor.
  - vm_compute. reflexivity.
Defined.
